(** * RotatingCache: a bounded in-memory cache with TTL and rotation

    A shallow embedding of [index.js] (class [RotatingCache]) and the
    properties of its specification.

    Conventions of the embedding.

    - JavaScript numbers that the cache computes with (timestamps, TTLs,
      sizes, counters) are integers, modelled in [Z].  The one place where
      the code can produce [NaN] ([stats.valueSize], see [del]) has a type
      of its own, [Number.t].
    - A string is a sequence of code units, one [ascii] each; [length] of a
      key is [String.length].
    - [this.data] is the object literal [{}]: its own properties are kept
      as an association list in creation order, and a read [this.data[key]]
      that finds no own property continues in [Object.prototype], exactly
      as the property lookup of the language does ([data_get]).
    - [Date.now()] is an input of the program: the n-th call returns
      [clock n], and the cache counts the calls made so far.
    - An exception leaves the mutations made before it in place, so every
      method is a function from the cache to the cache after the call and
      the way the call completed ([M]).
    - The prototype of [this.data] is [Object.prototype] throughout.  The
      one way in which the code can change that is a write through
      [this.data['__proto__']]; a call that makes such a write completes
      as [Unmodelled], and nothing is stated about the cache after it. *)

From Stdlib Require Import ZArith NArith List String Ascii Bool Lia.
From Stdlib Require Import Sorting.Permutation.
Import ListNotations.

Local Open Scope string_scope.
Local Open Scope Z_scope.

(** ** Values and their estimated size *)

(** The shapes of a cached value that [_getValueSize] tells apart. *)
#[local] Unset Elimination Schemes.
Inductive val : Type :=
| VUndefined
| VNull
| VArray (elems : list val)
| VThenable                                (* value.then is a function *)
| VString (s : string)
| VNumber (n : Z)
| VBoolean (b : bool)
| VObject (fields : list (string * val))   (* typeof 'object', no callable then *)
| VOther.                                  (* function, symbol, bigint *)
#[local] Set Elimination Schemes.

Module Options.

Record t : Type := mk
  { maxKeys : Z;
    stdTTL : Z;
    checkperiod : Z;
    useClones : bool;
    deleteOnExpire : bool;
    rotateType : string;
    objectValueSize : Z;
    promiseValueSize : Z;
    arrayValueSize : Z;
    ttlScale : Z }.

End Options.

Definition DEFAULT_OPTIONS : Options.t :=
  {| Options.maxKeys := 2500;
     Options.stdTTL := -1;
     Options.checkperiod := 600;
     Options.useClones := true;
     Options.deleteOnExpire := true;
     Options.rotateType := "oldest";
     Options.objectValueSize := 80;
     Options.promiseValueSize := 80;
     Options.arrayValueSize := 40;
     Options.ttlScale := 1000 |}.

Definition ROTATE_TYPES : list string := ["oldest"; "inactive"; "expiry"].

(** [Array.prototype.includes] on an array of strings. *)
Definition includes (l : list string) (s : string) : bool :=
  existsb (String.eqb s) l.

Module Entry.

Record t : Type := mk
  { value : val;
    size : Z;
    ttl : Z;
    added : Z;
    lastAccess : Z }.

Definition with_ttl (x : Z) (e : t) : t :=
  mk (value e) (size e) x (added e) (lastAccess e).

Definition with_lastAccess (x : Z) (e : t) : t :=
  mk (value e) (size e) (ttl e) (added e) x.

End Entry.

(** ** Numbers that may be NaN *)

Module Number.

Inductive t : Type :=
| Int (z : Z)
| NaN.

(** [a + z] for an integer [z]. *)
Definition add (a : t) (z : Z) : t :=
  match a with
  | Int x => Int (x + z)
  | NaN => NaN
  end.

(** [a - v] where [v] is an integer or [undefined] ([None]):
    subtracting [undefined] gives [NaN]. *)
Definition sub (a : t) (v : option Z) : t :=
  match a, v with
  | Int x, Some z => Int (x - z)
  | _, _ => NaN
  end.

End Number.

Module Stats.

Record t : Type := mk
  { keys : Z;
    hits : Z;
    misses : Z;
    keySize : Z;
    valueSize : Number.t }.

Definition zero : t := mk 0 0 0 0 (Number.Int 0).

End Stats.

(** ** The object [this.data] *)

(** Own properties, in creation order. *)
Definition object : Type := list (string * Entry.t).

(** The property names of [Object.prototype].  All of them are methods,
    except [__proto__], an accessor that returns the prototype itself: each
    reads as a truthy value that has no property [size], [ttl] or [value]. *)
Definition Object_prototype : list string :=
  [ "constructor"; "__defineGetter__"; "__defineSetter__"; "hasOwnProperty";
    "__lookupGetter__"; "__lookupSetter__"; "isPrototypeOf";
    "propertyIsEnumerable"; "toString"; "valueOf"; "__proto__";
    "toLocaleString" ].

Definition inherited (key : string) : bool := includes Object_prototype key.

Fixpoint lookup (key : string) (d : object) : option Entry.t :=
  match d with
  | [] => None
  | (k, e) :: d' => if String.eqb key k then Some e else lookup key d'
  end.

(** What the expression [this.data[key]] evaluates to. *)
Inductive property : Type :=
| Own (e : Entry.t)      (* an entry stored by [set] *)
| Inherited              (* a member of Object.prototype *)
| Absent.                (* undefined *)

Definition data_get (d : object) (key : string) : property :=
  match lookup key d with
  | Some e => Own e
  | None => if inherited key then Inherited else Absent
  end.

(** Truthiness of [this.data[key]]: only [undefined] is falsy. *)
Definition truthy (p : property) : bool :=
  match p with
  | Absent => false
  | _ => true
  end.

(** [this.data[key].size]: a member of Object.prototype has no such
    property, and the read gives [undefined]. *)
Definition size_of (p : property) : option Z :=
  match p with
  | Own e => Some (Entry.size e)
  | _ => None
  end.

(** [delete this.data[key]]: removes the own property, if there is one. *)
Definition delete (key : string) (d : object) : object :=
  filter (fun p => negb (String.eqb key (fst p))) d.

(** [this.data[key] = e] for a key other than [__proto__]: an own property
    keeps its place, a new one is created last. *)
Fixpoint assign (key : string) (e : Entry.t) (d : object) : object :=
  match d with
  | [] => [(key, e)]
  | (k, e') :: d' =>
      if String.eqb key k then (k, e) :: d' else (k, e') :: assign key e d'
  end.

(** The object that [mget] builds from [{}]: its own properties, in
    creation order. *)
Definition result : Type := list (string * val).

(** [o[key] = v] for a key other than [__proto__]. *)
Fixpoint result_put (key : string) (v : val) (o : result) : result :=
  match o with
  | [] => [(key, v)]
  | (k, v') :: o' =>
      if String.eqb key k then (k, v) :: o' else (k, v') :: result_put key v o'
  end.


(** ** [Array.prototype.sort] and [Object.keys] *)

(** The result of a comparator: a number, of which [sort] uses the sign. *)
Inductive order : Type :=
| Finite (z : Z)
| Infinity.

Definition positive (r : order) : bool :=
  match r with
  | Finite z => 0 <? z
  | Infinity => true
  end.

Section Sort.

Context {A : Type} (comparefn : A -> A -> order).

Fixpoint insert (x : A) (l : list A) : list A :=
  match l with
  | [] => [x]
  | y :: l' => if positive (comparefn x y) then y :: insert x l' else x :: l
  end.

(** The language requires [sort] to be stable and, for a comparator that is
    a consistent ordering, to return the sorted permutation: that result is
    unique, and this function computes it by insertion.  ([x] goes after [y]
    when [comparefn x y > 0], and elements that compare equal keep their
    order.)  For a comparator that is not a consistent ordering the language
    leaves the order to the implementation; no statement below depends on
    the choice made here. *)
Fixpoint sort (l : list A) : list A :=
  match l with
  | [] => []
  | x :: l' => insert x (sort l')
  end.

End Sort.

Definition digit (c : ascii) : option N :=
  let n := N_of_ascii c in
  if ((48 <=? n) && (n <=? 57))%N then Some (n - 48)%N else None.

Fixpoint digits (s : string) (acc : N) : option N :=
  match s with
  | EmptyString => Some acc
  | String c s' =>
      match digit c with
      | Some x => digits s' (10 * acc + x)%N
      | None => None
      end
  end.

(** An array index is the canonical decimal form of an integer between 0
    and 2^32 - 2. *)
Definition array_index (s : string) : option N :=
  match s with
  | EmptyString => None
  | String c s' =>
      if Ascii.eqb c "0"%char
      then (if String.eqb s' "" then Some 0%N else None)
      else match digits s 0 with
           | Some n => if (n <? 4294967295)%N then Some n else None
           | None => None
           end
  end.

Definition is_index (p : string * Entry.t) : bool :=
  match array_index (fst p) with
  | Some _ => true
  | None => false
  end.

Definition index_value (p : string * Entry.t) : Z :=
  match array_index (fst p) with
  | Some n => Z.of_N n
  | None => 0
  end.

(** The own properties in the order in which the language enumerates them:
    array indices in ascending numeric order, then the other names in
    creation order. *)
Definition own_properties (d : object) : list (string * Entry.t) :=
  sort (fun a b => Finite (index_value a - index_value b)) (filter is_index d)
  ++ filter (fun p => negb (is_index p)) d.

Definition Object_keys (d : object) : list string :=
  map fst (own_properties d).

(** ** The cache and its methods *)

Inductive error : Type :=
| InvalidConfiguration   (* Invalid rotation type specified *)
| CapacityExceeded       (* Cache limit of ... keys reached / will be reached *)
| KeyNotFound            (* The specified key does not exist *)
| TypeError.             (* raised by the language: a property of undefined *)

(** How a call completes.  [Unmodelled]: the call wrote through
    [this.data['__proto__']], which replaces the prototype of [this.data] or
    adds a property to [Object.prototype]; what the cache does from there on
    is outside this development. *)
Inductive completion (A : Type) : Type :=
| Normal (a : A)
| Throw (e : error)
| Unmodelled.

Arguments Normal {A} a.
Arguments Throw {A} e.
Arguments Unmodelled {A}.

Module RotatingCache.

(** The fields of an instance.  [checkTimeout] is the state of the timer
    behind the handle: [Some delay] while the one-shot timer created by
    [setTimeout] is pending, [None] once it has fired or was cleared.
    [clockReads] counts the calls of [Date.now()] made so far. *)
Record t : Type := mk
  { data : object;
    options : Options.t;
    stats : Stats.t;
    checkTimeout : option Z;
    clockReads : nat }.

Definition with_data (f : object -> object) (c : t) : t :=
  mk (f (data c)) (options c) (stats c) (checkTimeout c) (clockReads c).

Definition with_stats (f : Stats.t -> Stats.t) (c : t) : t :=
  mk (data c) (options c) (f (stats c)) (checkTimeout c) (clockReads c).

Definition with_checkTimeout (x : option Z) (c : t) : t :=
  mk (data c) (options c) (stats c) x (clockReads c).

(** *** Calls that read and change the instance, and may throw *)

Definition M (A : Type) : Type := t -> t * completion A.

Definition ret {A : Type} (a : A) : M A := fun c => (c, Normal a).

Definition bind {A B : Type} (m : M A) (f : A -> M B) : M B :=
  fun c =>
    match m c with
    | (c', Normal a) => f a c'
    | (c', Throw e) => (c', Throw e)
    | (c', Unmodelled) => (c', Unmodelled)
    end.

Definition throw {A : Type} (e : error) : M A := fun c => (c, Throw e).

Definition unmodelled {A : Type} : M A := fun c => (c, Unmodelled).

Definition gets {A : Type} (f : t -> A) : M A := fun c => (c, Normal (f c)).

Definition modify (f : t -> t) : M unit := fun c => (f c, Normal tt).

Notation "x <- m ;; k" := (bind m (fun x => k))
  (at level 61, m at next level, right associativity).
Notation "m ;; k" := (bind m (fun _ => k))
  (at level 61, right associativity).

(** [l.forEach(f)] *)
Fixpoint forEach {A : Type} (f : A -> M unit) (l : list A) : M unit :=
  match l with
  | [] => ret tt
  | x :: l' => f x ;; forEach f l'
  end.

(** [l.reduce(f, init)] *)
Fixpoint reduce {A B : Type} (f : B -> A -> M B) (l : list A) (init : B)
  : M B :=
  match l with
  | [] => ret init
  | x :: l' => b <- f init x ;; reduce f l' b
  end.

(** *** Helpers *)

(** [key.toString()] of a string is the string. *)
Definition _makeKey (key : string) : string := key.

Definition _getKeySize (key : string) : Z := Z.of_nat (String.length key).

Definition _getValueSize (o : Options.t) (value : val) : Z :=
  match value with
  | VNull | VUndefined => 0
  | VArray elems => Options.arrayValueSize o * Z.of_nat (List.length elems)
  | VThenable => Options.promiseValueSize o
  | VString s => Z.of_nat (String.length s)
  | VNumber _ | VBoolean _ => 8
  | VObject fields => Z.of_nat (List.length fields) * Options.objectValueSize o
  | VOther => 0
  end.

(** [this.data[key].ttl * this.options.ttlScale], for the entry [e] that
    [this.data[key]] is. *)
Definition _getTTLDate (o : Options.t) (e : Entry.t) : Z :=
  Entry.ttl e * Options.ttlScale o.

(** The structural copy made by [deepCopy]; values here are immutable. *)
Definition deepCopy (v : val) : val := v.

(** *** del *)

Definition del (key : string) : M Z :=
  let key := _makeKey key in
  p <- gets (fun c => data_get (data c) key) ;;
  if negb (truthy p) then ret 0
  else
    modify (with_stats (fun s =>
      Stats.mk (Stats.keys s - 1) (Stats.hits s) (Stats.misses s)
               (Stats.keySize s - _getKeySize key)
               (Number.sub (Stats.valueSize s) (size_of p)))) ;;
    modify (with_data (delete key)) ;;
    ret 1.

(** *** Writes through [this.data[key]] *)

(** [this.data[key] = e].  For every key but [__proto__] the assignment
    creates or replaces an own property. *)
Definition write_entry (key : string) (e : Entry.t) : M unit :=
  if String.eqb key "__proto__" then unmodelled
  else modify (with_data (assign key e)).

(** [this.data[key].field = x], as the update [f] of the entry.  When
    [this.data[key]] is an inherited method the property is added to that
    function object and the cache does not change. *)
Definition write_field (key : string) (f : Entry.t -> Entry.t) : M unit :=
  p <- gets (fun c => data_get (data c) key) ;;
  match p with
  | Own e => modify (with_data (assign key (f e)))
  | Inherited => if String.eqb key "__proto__" then unmodelled else ret tt
  | Absent => throw TypeError
  end.

(** [this.data[key].value] *)
Definition value_of (p : property) : val :=
  match p with
  | Own e => Entry.value e
  | _ => VUndefined
  end.

(** *** mdel, getTtl, hasKey, flushAll, flushStats *)

Definition mdel (keys : list string) : M Z :=
  reduce (fun s k => n <- del k ;; ret (s + n)) keys 0.

(** [this.data[key].ttl]; the property [ttl] of an inherited method is what
    an earlier [ttl(key, seconds)] may have put there, which the cache does
    not hold. *)
Definition getTtl (key : string) : M Z :=
  let key := _makeKey key in
  p <- gets (fun c => data_get (data c) key) ;;
  if negb (truthy p) then throw KeyNotFound
  else match p with
       | Own e => ret (Entry.ttl e)
       | _ => unmodelled
       end.

(** [this.data[key] !== undefined], for the key as it is given. *)
Definition hasKey (key : string) : M bool :=
  p <- gets (fun c => data_get (data c) key) ;;
  ret (match p with Absent => false | _ => true end).

Definition flushAll : M unit :=
  modify (fun c => mk [] (options c) Stats.zero (checkTimeout c) (clockReads c)).

Definition flushStats : M unit :=
  modify (with_stats (fun s =>
    Stats.mk (Stats.keys s) 0 0 (Stats.keySize s) (Stats.valueSize s))).

(** *** The rotation policies of [set] *)

(** The comparators compare two keys through their entries; here the keys
    come with the entries they name. *)
Definition by_added (a b : string * Entry.t) : order :=
  Finite (Entry.added (snd b) - Entry.added (snd a)).

Definition by_lastAccess (a b : string * Entry.t) : order :=
  Finite (Entry.lastAccess (snd b) - Entry.lastAccess (snd a)).

Definition by_expiry (o : Options.t) (a b : string * Entry.t) : order :=
  if Entry.ttl (snd a) =? -1 then Infinity
  else Finite (_getTTLDate o (snd a) - _getTTLDate o (snd b)).

(** [Object.keys(this.data).sort(comparefn)[0]]; [None] is [undefined]. *)
Definition first_sorted (comparefn : string * Entry.t -> string * Entry.t -> order)
  (d : object) : option string :=
  option_map fst (hd_error (sort comparefn (own_properties d))).

Definition rotate : M (option string) :=
  o <- gets options ;;
  d <- gets data ;;
  if String.eqb (Options.rotateType o) "oldest" then
    ret (first_sorted by_added d)
  else if String.eqb (Options.rotateType o) "inactive" then
    ret (first_sorted by_lastAccess d)
  else if String.eqb (Options.rotateType o) "expiry" then
    ret (first_sorted (by_expiry o) d)
  else throw CapacityExceeded.

Section Clock.

(** [clock n] is what the n-th call of [Date.now()] returns. *)
Variable clock : nat -> Z.

Definition Date_now : M Z :=
  fun c =>
    (mk (data c) (options c) (stats c) (checkTimeout c) (S (clockReads c)),
     Normal (clock (clockReads c))).

(** *** set *)

Definition set (key : string) (value : val) (ttl : option Z) : M unit :=
  let key := _makeKey key in
  p <- gets (fun c => data_get (data c) key) ;;
  (if truthy p then del key ;; ret tt else ret tt) ;;
  s <- gets stats ;;
  o <- gets options ;;
  (if Stats.keys s + 1 >? Options.maxKeys o then
     delKey <- rotate ;;
     match delKey with
     | Some k => del k ;; ret tt
     | None => throw TypeError         (* del(undefined): undefined.toString() *)
     end
   else ret tt) ;;
  let size := _getValueSize o value in
  modify (with_stats (fun s =>
    Stats.mk (Stats.keys s + 1) (Stats.hits s) (Stats.misses s)
             (Stats.keySize s + _getKeySize key)
             (Number.add (Stats.valueSize s) size))) ;;
  added <- Date_now ;;
  lastAccess <- Date_now ;;
  write_entry key
    (Entry.mk value size
       (match ttl with Some x => x | None => Options.stdTTL o end)
       added lastAccess).

(** *** mset *)

(** An element [{ key, value, ttl }] of the batch; a [ttl] left out is
    [undefined], for which [set] takes its default [null]. *)
Record item : Type := mk_item
  { item_key : string;
    item_value : val;
    item_ttl : option Z }.

Definition mset (batch : list item) : M unit :=
  s <- gets stats ;;
  o <- gets options ;;
  if (Stats.keys s + Z.of_nat (List.length batch) >? Options.maxKeys o)
     && negb (includes ROTATE_TYPES (Options.rotateType o))
  then throw CapacityExceeded
  else forEach (fun i => set (item_key i) (item_value i) (item_ttl i)) batch.

(** *** get *)

Definition get (key : string) : M val :=
  let key := _makeKey key in
  p <- gets (fun c => data_get (data c) key) ;;
  if truthy p then
    modify (with_stats (fun s =>
      Stats.mk (Stats.keys s) (Stats.hits s + 1) (Stats.misses s)
               (Stats.keySize s) (Stats.valueSize s))) ;;
    now <- Date_now ;;
    write_field key (Entry.with_lastAccess now) ;;
    o <- gets options ;;
    ret (if Options.useClones o then deepCopy (value_of p) else value_of p)
  else
    modify (with_stats (fun s =>
      Stats.mk (Stats.keys s) (Stats.hits s) (Stats.misses s + 1)
               (Stats.keySize s) (Stats.valueSize s))) ;;
    ret VUndefined.

(** *** mget *)

Definition mget (keys : list string) : M result :=
  reduce (fun o k =>
            v <- get k ;;
            if String.eqb k "__proto__" then unmodelled
            else ret (result_put k v o))
         keys [].

(** *** ttl *)

Definition ttl (key : string) (ttl : Z) : M unit :=
  let key := _makeKey key in
  p <- gets (fun c => data_get (data c) key) ;;
  if negb (truthy p) then throw KeyNotFound
  else if ttl =? 0 then del key ;; ret tt
  else write_field key (Entry.with_ttl ttl).

(** *** keys *)

Definition keys : M (list string) := gets (fun c => Object_keys (data c)).

(** *** The expiry sweep and its timer *)

Definition _expire : M unit :=
  now <- Date_now ;;
  ks <- gets (fun c => Object_keys (data c)) ;;
  forEach (fun key =>
    p <- gets (fun c => data_get (data c) key) ;;
    o <- gets options ;;
    match p with
    | Own e =>
        if (Entry.ttl e >? -1) && (Entry.added e + _getTTLDate o e <? now)
        then del key ;; ret tt
        else ret tt
    | Inherited => unmodelled      (* an own key deleted before its turn *)
    | Absent => throw TypeError    (* the same, and undefined.ttl *)
    end) ks.

(** The constructor, for the options merged with [DEFAULT_OPTIONS]. *)
Definition constructor (o : Options.t) : completion t :=
  if negb (includes (ROTATE_TYPES ++ ["none"]) (Options.rotateType o))
  then Throw InvalidConfiguration
  else Normal (mk [] o Stats.zero
                  (Some (Options.checkperiod o * Options.ttlScale o)) 0).

Definition close : M unit := modify (with_checkTimeout None).

(** The host fires the timer: a pending one-shot timer is removed and its
    callback, [_expire], runs; without a pending timer nothing happens. *)
Definition timer_fires : M unit :=
  pending <- gets checkTimeout ;;
  match pending with
  | Some _ => modify (with_checkTimeout None) ;; _expire
  | None => ret tt
  end.

End Clock.

End RotatingCache.

Import RotatingCache.

(** * Definitions for the statements *)

(** ** The methods, step by step *)

(** The cache after [del(key)] has removed what [this.data[key]] is. *)
Definition deleted (key : string) (c : RotatingCache.t) : RotatingCache.t :=
  RotatingCache.mk
    (delete key (data c)) (options c)
    (Stats.mk (Stats.keys (stats c) - 1) (Stats.hits (stats c))
              (Stats.misses (stats c))
              (Stats.keySize (stats c) - _getKeySize key)
              (Number.sub (Stats.valueSize (stats c))
                          (size_of (data_get (data c) key))))
    (checkTimeout c) (clockReads c).

(** The capacity check of [set]. *)
Definition make_room (c : RotatingCache.t) : RotatingCache.t * completion unit :=
  if Stats.keys (stats c) + 1 >? Options.maxKeys (options c) then
    match rotate c with
    | (_, Normal (Some k)) => (fst (del k c), Normal tt)
    | (_, Normal None) => (c, Throw TypeError)
    | (_, Throw e) => (c, Throw e)
    | (_, Unmodelled) => (c, Unmodelled)
    end
  else (c, Normal tt).

(** The entry that [set] creates, and the cache once it is stored. *)
Definition new_entry (clock : nat -> Z) (value : val) (ttl : option Z)
  (c : RotatingCache.t) : Entry.t :=
  Entry.mk value (_getValueSize (options c) value)
    (match ttl with Some x => x | None => Options.stdTTL (options c) end)
    (clock (clockReads c)) (clock (S (clockReads c))).

Definition counted (key : string) (value : val) (c : RotatingCache.t)
  : RotatingCache.t :=
  RotatingCache.mk (data c) (options c)
    (Stats.mk (Stats.keys (stats c) + 1) (Stats.hits (stats c))
       (Stats.misses (stats c))
       (Stats.keySize (stats c) + _getKeySize key)
       (Number.add (Stats.valueSize (stats c))
          (_getValueSize (options c) value)))
    (checkTimeout c) (S (S (clockReads c))).

Definition stored (clock : nat -> Z) (key : string) (value : val)
  (ttl : option Z) (c : RotatingCache.t) : RotatingCache.t :=
  with_data (assign key (new_entry clock value ttl c)) (counted key value c).

(** The lines of [set] after the capacity check. *)
Definition store (clock : nat -> Z) (key : string) (value : val)
  (ttl : option Z) (c : RotatingCache.t) : RotatingCache.t * completion unit :=
  if String.eqb key "__proto__" then (counted key value c, Unmodelled)
  else (stored clock key value ttl c, Normal tt).

(** One turn of the loop of [_expire]. *)
Definition sweep_key (now : Z) (key : string) : M unit :=
  p <- gets (fun c => data_get (data c) key) ;;
  o <- gets options ;;
  match p with
  | Own e =>
      if (Entry.ttl e >? -1) && (Entry.added e + _getTTLDate o e <? now)
      then del key ;; ret tt
      else ret tt
  | Inherited => unmodelled
  | Absent => throw TypeError
  end.

(** ** Vocabulary of the specification *)

(** A call completed without an exception. *)
Definition succeeded {A : Type} (r : completion A) : bool :=
  match r with
  | Normal _ => true
  | _ => false
  end.

(** The time at which an entry expires, as the sweep computes it:
    [data.added + this._getTTLDate(key)]. *)
Definition expires_at (o : Options.t) (e : Entry.t) : Z :=
  Entry.added e + _getTTLDate o e.

(** The test of the sweep: [ttl > -1] and [added + ttl * ttlScale < now]. *)
Definition expired (o : Options.t) (now : Z) (e : Entry.t) : bool :=
  (Entry.ttl e >? -1) && (expires_at o e <? now).

(** The aggregates over the live entries. *)
Fixpoint key_sizes (d : object) : Z :=
  match d with
  | [] => 0
  | (key, _) :: d' => _getKeySize key + key_sizes d'
  end.

Fixpoint value_sizes (d : object) : Z :=
  match d with
  | [] => 0
  | (_, e) :: d' => Entry.size e + value_sizes d'
  end.

(** The accounting invariant, for a store that has no key twice. *)
Definition accounted (c : RotatingCache.t) : Prop :=
  NoDup (map fst (data c))
  /\ Stats.keys (stats c) = Z.of_nat (List.length (data c))
  /\ Stats.keySize (stats c) = key_sizes (data c)
  /\ Stats.valueSize (stats c) = Number.Int (value_sizes (data c)).

(** A call of [set] or [del]. *)
Inductive operation : Type :=
| Set_ (key : string) (value : val) (ttl : option Z)
| Del (key : string).

Definition operation_key (op : operation) : string :=
  match op with
  | Set_ key _ _ => key
  | Del key => key
  end.

(** The cache after an operation, whether the call returned or threw. *)
Definition perform (clock : nat -> Z) (c : RotatingCache.t) (op : operation)
  : RotatingCache.t :=
  match op with
  | Set_ key value ttl => fst (set clock key value ttl c)
  | Del key => fst (del key c)
  end.

(** ** Caches and clocks of the examples *)

(** A cache just constructed with the default options. *)
Definition fresh : RotatingCache.t :=
  RotatingCache.mk [] DEFAULT_OPTIONS Stats.zero (Some 600000) 0.

(** A cache just constructed with [maxKeys: 2] and the given policy. *)
Definition two_keys (rotateType : string) : RotatingCache.t :=
  RotatingCache.mk []
    (Options.mk 2 (-1) 600 true true rotateType 80 80 40 1000)
    Stats.zero (Some 600000) 0.

(** A clock that advances by one millisecond at every reading. *)
Definition ticking (n : nat) : Z := Z.of_nat n.

(** A clock that shows 0 during the first [set] and 50 s from then on. *)
Definition fifty_seconds_apart (n : nat) : Z :=
  match n with
  | 0%nat | 1%nat => 0
  | _ => 50000
  end.

(** Three entries added at time 0: [a] with a TTL of 1 s, [b] that never
    expires, [c] with a TTL of 100 s. *)
Definition three_entries : RotatingCache.t :=
  RotatingCache.mk
    [("a", Entry.mk (VNumber 1) 8 1 0 0);
     ("b", Entry.mk (VNumber 2) 8 (-1) 0 0);
     ("c", Entry.mk (VNumber 3) 8 100 0 0)]
    DEFAULT_OPTIONS
    (Stats.mk 3 0 0 3 (Number.Int 24)) (Some 600000) 6.

(** A store that holds [a] and [b] and is full, under 'none'. *)
Definition full_of_a_b : RotatingCache.t :=
  fst ((set ticking "a" (VNumber 1) None ;;
        set ticking "b" (VNumber 2) None) (two_keys "none")).

(** ** The other methods, step by step *)

(** The cache after [get] has counted a hit and read the clock, and after
    it has counted a miss. *)
Definition counted_hit (c : RotatingCache.t) : RotatingCache.t :=
  RotatingCache.mk (data c) (options c)
    (Stats.mk (Stats.keys (stats c)) (Stats.hits (stats c) + 1)
       (Stats.misses (stats c)) (Stats.keySize (stats c))
       (Stats.valueSize (stats c)))
    (checkTimeout c) (S (clockReads c)).

Definition counted_miss (c : RotatingCache.t) : RotatingCache.t :=
  RotatingCache.mk (data c) (options c)
    (Stats.mk (Stats.keys (stats c)) (Stats.hits (stats c))
       (Stats.misses (stats c) + 1) (Stats.keySize (stats c))
       (Stats.valueSize (stats c)))
    (checkTimeout c) (clockReads c).

(** [get(key)], by what [this.data[key]] is. *)
Definition read (clock : nat -> Z) (key : string) (c : RotatingCache.t)
  : RotatingCache.t * completion val :=
  match data_get (data c) key with
  | Own e =>
      (with_data (assign key (Entry.with_lastAccess (clock (clockReads c)) e))
         (counted_hit c),
       Normal (Entry.value e))
  | Inherited =>
      (counted_hit c,
       if String.eqb key "__proto__" then Unmodelled else Normal VUndefined)
  | Absent => (counted_miss c, Normal VUndefined)
  end.

(** The TTL that [set] stores: the one given, or [stdTTL]. *)
Definition stored_ttl (ttl : option Z) (c : RotatingCache.t) : Z :=
  match ttl with
  | Some x => x
  | None => Options.stdTTL (options c)
  end.

(** Every entry has the size that the estimator gives its value. *)
Definition estimated (c : RotatingCache.t) : Prop :=
  forall key e, In (key, e) (data c) ->
    Entry.size e = _getValueSize (options c) (Entry.value e).

Fixpoint estimates (o : Options.t) (d : object) : Z :=
  match d with
  | [] => 0
  | (_, e) :: d' => _getValueSize o (Entry.value e) + estimates o d'
  end.

(** A cache whose stats [set('toString', 1)] has put out of step. *)
Definition miscounted : RotatingCache.t :=
  fst (set ticking "toString" (VNumber 1) None fresh).

(** A full store of two entries: [a], added at 0 and read at 9, and [b],
    added at 5 and never read; [a] expires later than [b]. *)
Definition a_then_b (rotateType : string) : RotatingCache.t :=
  RotatingCache.mk
    [("a", Entry.mk (VNumber 1) 8 100 0 9);
     ("b", Entry.mk (VNumber 2) 8 60 5 5)]
    (Options.mk 2 (-1) 600 true true rotateType 80 80 40 1000)
    (Stats.mk 2 1 0 2 (Number.Int 16)) (Some 600000) 5.

(** ** Sequences of calls *)

(** A call of a method of the cache, or the timer of the sweep firing. *)
Inductive call : Type :=
| Call_set (key : string) (value : val) (ttl : option Z)
| Call_mset (batch : list item)
| Call_get (key : string)
| Call_mget (keys : list string)
| Call_del (key : string)
| Call_mdel (keys : list string)
| Call_ttl (key : string) (seconds : Z)
| Call_getTtl (key : string)
| Call_hasKey (key : string)
| Call_flushAll
| Call_flushStats
| Call_close
| Timer.

(** The keys that a call names. *)
Definition call_keys (x : call) : list string :=
  match x with
  | Call_set key _ _ | Call_get key | Call_del key | Call_ttl key _
  | Call_getTtl key | Call_hasKey key => [key]
  | Call_mset batch => map item_key batch
  | Call_mget keys | Call_mdel keys => keys
  | Call_flushAll | Call_flushStats | Call_close | Timer => []
  end.

(** No key of the call names a member of [Object.prototype]. *)
Definition ordinary (x : call) : Prop :=
  forall key, In key (call_keys x) -> inherited key = false.

(** The cache after the call, whether it returned or threw. *)
Definition invoke (clock : nat -> Z) (c : RotatingCache.t) (x : call)
  : RotatingCache.t :=
  match x with
  | Call_set key value ttl => fst (set clock key value ttl c)
  | Call_mset batch => fst (mset clock batch c)
  | Call_get key => fst (get clock key c)
  | Call_mget keys => fst (mget clock keys c)
  | Call_del key => fst (del key c)
  | Call_mdel keys => fst (mdel keys c)
  | Call_ttl key seconds => fst (ttl key seconds c)
  | Call_getTtl key => fst (getTtl key c)
  | Call_hasKey key => fst (hasKey key c)
  | Call_flushAll => fst (flushAll c)
  | Call_flushStats => fst (flushStats c)
  | Call_close => fst (close c)
  | Timer => fst (timer_fires clock c)
  end.

(** What every call on ordinary keys keeps: the options [o], the stats in
    step with the entries, every size the estimate of its value, and, for a
    capacity that is not negative, no more keys than [maxKeys]. *)
Definition kept (o : Options.t) (c : RotatingCache.t) : Prop :=
  options c = o
  /\ accounted c
  /\ estimated c
  /\ (0 <= Options.maxKeys o -> Stats.keys (stats c) <= Options.maxKeys o).

(** A few calls for a cache with [maxKeys: 2]: more keys than fit, a hit
    and a miss, a TTL changed and one set to 0, a batch, a flush of the
    stats and the sweep. *)
Definition some_calls : list call :=
  [ Call_set "a" (VString "one") None;
    Call_set "b" (VArray [VNull; VNull]) (Some 1);
    Call_get "a"; Call_get "x";
    Call_set "c" (VObject [("p", VNumber 1)]) None;
    Call_ttl "a" 5; Call_ttl "c" 0;
    Call_mset [mk_item "d" VThenable None];
    Call_mget ["a"; "d"]; Call_mdel ["x"; "d"];
    Timer; Call_flushStats;
    Call_set "a" (VBoolean true) None ].

(** The call does not name [__proto__]. *)
Definition modelled (x : call) : Prop := ~ In "__proto__" (call_keys x).


(** * Properties *)

(** ** Sequencing *)

Lemma bind_normal {A B : Type} (m : M A) (k : A -> M B)
  (c c' : RotatingCache.t) (a : A) :
  m c = (c', Normal a) -> bind m k c = k a c'.
Proof. intros H. unfold bind. rewrite H. reflexivity. Qed.

Lemma forEach_preserves {A : Type} (P : RotatingCache.t -> Prop)
  (f : A -> M unit) :
  (forall x c, P c -> P (fst (f x c))) ->
  forall l c, P c -> P (fst (forEach f l c)).
Proof.
  intros Hf l. induction l as [|x l IH]; intros c Hc; simpl.
  - exact Hc.
  - unfold bind. specialize (Hf x c Hc).
    destruct (f x c) as [c' [[]|e|]]; simpl in *; auto.
Qed.

(** ** Own properties: lookup, assignment, deletion *)

Lemma lookup_assign_same (key : string) (e : Entry.t) (d : object) :
  lookup key (assign key e d) = Some e.
Proof.
  induction d as [|[k e'] d IH]; simpl.
  - rewrite String.eqb_refl. reflexivity.
  - destruct (String.eqb key k) eqn:E; simpl; rewrite E; auto.
Qed.

Lemma lookup_delete_same (key : string) (d : object) :
  lookup key (delete key d) = None.
Proof.
  induction d as [|[k e] d IH]; simpl; [reflexivity|].
  destruct (String.eqb key k) eqn:E; simpl; [assumption|].
  rewrite E. assumption.
Qed.

Lemma lookup_delete_other (key k : string) (d : object) :
  k <> key -> lookup k (delete key d) = lookup k d.
Proof.
  intros Hne. induction d as [|[k' e] d IH]; simpl; [reflexivity|].
  destruct (String.eqb key k') eqn:E; simpl.
  - apply String.eqb_eq in E. subst k'.
    apply String.eqb_neq in Hne. rewrite Hne. assumption.
  - rewrite IH. reflexivity.
Qed.

Lemma lookup_None (key : string) (d : object) :
  lookup key d = None <-> ~ In key (map fst d).
Proof.
  induction d as [|[k e] d IH]; simpl.
  - tauto.
  - destruct (String.eqb key k) eqn:E.
    + apply String.eqb_eq in E. subst. split; [discriminate | tauto].
    + apply String.eqb_neq in E. rewrite IH. split.
      * intros H [H1 | H1]; [congruence | tauto].
      * tauto.
Qed.

Lemma In_lookup (key : string) (e : Entry.t) (d : object) :
  NoDup (map fst d) -> In (key, e) d -> lookup key d = Some e.
Proof.
  induction d as [|[k e'] d IH]; simpl; [tauto|].
  intros Hnd [H | H].
  - inversion H; subst. rewrite String.eqb_refl. reflexivity.
  - inversion Hnd as [|? ? Hk Hnd']; subst.
    destruct (String.eqb key k) eqn:E.
    + apply String.eqb_eq in E. subst. exfalso. apply Hk.
      apply (in_map fst) in H. exact H.
    + auto.
Qed.

Lemma own_not_inherited (key : string) (d : object) :
  In key (map fst d) -> data_get d key <> Inherited.
Proof.
  intros Hin. unfold data_get.
  destruct (lookup key d) eqn:E; [discriminate|].
  apply lookup_None in E. contradiction.
Qed.

Lemma ordinary_not_inherited (key : string) (d : object) :
  inherited key = false -> data_get d key <> Inherited.
Proof.
  intros Hkey. unfold data_get.
  destruct (lookup key d); [discriminate|]. rewrite Hkey. discriminate.
Qed.

Lemma delete_keys (key k : string) (d : object) :
  In k (map fst (delete key d)) <-> k <> key /\ In k (map fst d).
Proof.
  unfold delete. induction d as [|[k' e] d IH]; simpl; [tauto|].
  destruct (String.eqb key k') eqn:E; simpl.
  - apply String.eqb_eq in E. subst k'. rewrite IH. intuition congruence.
  - apply String.eqb_neq in E. rewrite IH. intuition congruence.
Qed.

Lemma delete_NoDup (key : string) (d : object) :
  NoDup (map fst d) -> NoDup (map fst (delete key d)).
Proof.
  induction d as [|[k e] d IH]; simpl; intros Hnd; [constructor|].
  inversion Hnd as [|? ? Hk Hnd']; subst.
  destruct (String.eqb key k); simpl; auto.
  constructor; auto.
  rewrite delete_keys. tauto.
Qed.

Lemma delete_absent (key : string) (d : object) :
  lookup key d = None -> delete key d = d.
Proof.
  induction d as [|[k e] d IH]; simpl; [reflexivity|].
  destruct (String.eqb key k); [discriminate|]. simpl.
  intros H. rewrite IH by assumption. reflexivity.
Qed.

Lemma delete_own (key : string) (e : Entry.t) (d : object) :
  NoDup (map fst d) -> lookup key d = Some e ->
  Z.of_nat (List.length (delete key d)) = Z.of_nat (List.length d) - 1
  /\ key_sizes (delete key d) = key_sizes d - _getKeySize key
  /\ value_sizes (delete key d) = value_sizes d - Entry.size e.
Proof.
  induction d as [|[k e'] d IH]; [discriminate|].
  intros Hnd. inversion Hnd as [|? ? Hk Hnd']; subst.
  unfold delete in *.
  cbn [lookup filter fst snd List.length key_sizes value_sizes].
  destruct (String.eqb key k) eqn:E; cbn [negb].
  - apply String.eqb_eq in E. subst k. intros [= ->].
    fold (delete key d).
    rewrite delete_absent by (apply lookup_None; exact Hk).
    rewrite Nat2Z.inj_succ. lia.
  - intros H. destruct (IH Hnd' H) as (H1 & H2 & H3).
    cbn [List.length key_sizes value_sizes].
    rewrite !Nat2Z.inj_succ. lia.
Qed.

Lemma assign_absent (key : string) (e : Entry.t) (d : object) :
  lookup key d = None -> assign key e d = (d ++ [(key, e)])%list.
Proof.
  induction d as [|[k e'] d IH]; simpl; [reflexivity|].
  destruct (String.eqb key k); [discriminate|].
  intros H. rewrite IH by assumption. reflexivity.
Qed.

Lemma sizes_app (d d' : object) :
  key_sizes (d ++ d')%list = key_sizes d + key_sizes d'
  /\ value_sizes (d ++ d')%list = value_sizes d + value_sizes d'.
Proof.
  induction d as [|[k e] d [IH1 IH2]]; simpl; [lia|].
  rewrite IH1, IH2. lia.
Qed.

(** ** Sorting and the order of enumeration *)

Section SortFacts.

Context {A : Type} (comparefn : A -> A -> order).

Lemma insert_perm (x : A) (l : list A) :
  Permutation (insert comparefn x l) (x :: l).
Proof.
  induction l as [|y l IH]; simpl.
  - apply Permutation_refl.
  - destruct (positive (comparefn x y)).
    + eapply perm_trans; [apply perm_skip, IH | apply perm_swap].
    + apply Permutation_refl.
Qed.

Lemma sort_perm (l : list A) : Permutation (sort comparefn l) l.
Proof.
  induction l as [|x l IH]; simpl.
  - apply perm_nil.
  - eapply perm_trans; [apply insert_perm | apply perm_skip, IH].
Qed.

(** When the comparator orders the elements of [l] by a measure [g], in
    ascending order, the first element of the sorted list has the least
    measure. *)
Lemma sort_first_least (g : A -> Z) (l : list A) :
  (forall a b, In a l -> In b l ->
     positive (comparefn a b) = (g b <? g a)) ->
  forall h t, sort comparefn l = h :: t ->
  In h l /\ forall z, In z l -> g h <= g z.
Proof.
  induction l as [|x l IH]; intros Hcmp h t Hs; [discriminate|].
  cbn [sort] in Hs.
  assert (Hcmp' : forall a b, In a l -> In b l ->
            positive (comparefn a b) = (g b <? g a))
    by (intros a b Ha Hb; apply Hcmp; now right).
  destruct (sort comparefn l) as [|y t'] eqn:E.
  - assert (l = []) as ->.
    { apply Permutation_nil. rewrite <- E. apply sort_perm. }
    cbn in Hs. injection Hs as <- <-. split; [now left|].
    intros z [<- | []]. lia.
  - destruct (IH Hcmp' y t' eq_refl) as [Hy Hleast].
    cbn [insert] in Hs.
    rewrite (Hcmp x y) in Hs by (simpl; auto).
    destruct (Z.ltb_spec (g y) (g x)) as [Hlt | Hge];
      injection Hs as <- <-.
    + split; [now right|]. intros z [<- | Hz]; [lia | auto].
    + split; [now left|]. intros z [<- | Hz]; [lia|].
      specialize (Hleast z Hz). lia.
Qed.

End SortFacts.

Lemma filter_twice {A : Type} (f g : A -> bool) (l : list A) :
  filter f (filter g l) = filter (fun x => g x && f x) l.
Proof.
  induction l as [|x l IH]; simpl; [reflexivity|].
  destruct (g x); simpl; [destruct (f x)|]; rewrite IH; reflexivity.
Qed.

Lemma filter_split_perm {A : Type} (f : A -> bool) (l : list A) :
  Permutation (filter f l ++ filter (fun x => negb (f x)) l) l.
Proof.
  induction l as [|x l IH]; simpl.
  - apply perm_nil.
  - destruct (f x); simpl.
    + apply perm_skip, IH.
    + apply Permutation_sym, Permutation_cons_app, Permutation_sym, IH.
Qed.

Lemma own_properties_perm (d : object) : Permutation (own_properties d) d.
Proof.
  unfold own_properties.
  eapply perm_trans; [|apply (filter_split_perm is_index)].
  apply Permutation_app_tail, sort_perm.
Qed.

Lemma Object_keys_perm (d : object) :
  Permutation (Object_keys d) (map fst d).
Proof. apply Permutation_map, own_properties_perm. Qed.

(** The key that a policy selects, when the comparator orders the entries
    by a measure [g]: one of the keys of the store, of the least measure. *)
Lemma first_sorted_least
  (comparefn : string * Entry.t -> string * Entry.t -> order)
  (g : string * Entry.t -> Z) (d : object) (k : string) :
  (forall a b, In a d -> In b d ->
     positive (comparefn a b) = (g b <? g a)) ->
  first_sorted comparefn d = Some k ->
  exists e, In (k, e) d /\ forall p, In p d -> g (k, e) <= g p.
Proof.
  intros Hcmp. unfold first_sorted.
  destruct (sort comparefn (own_properties d)) as [|[k' e] t] eqn:E;
    [discriminate|].
  intros [= ->].
  destruct (sort_first_least comparefn g (own_properties d)) with (2 := E)
    as [Hin Hleast].
  - intros a b Ha Hb.
    apply Hcmp; eapply Permutation_in; eauto using own_properties_perm.
  - exists e. split.
    + eapply Permutation_in; [apply own_properties_perm | exact Hin].
    + intros p Hp. apply Hleast.
      eapply Permutation_in; [apply Permutation_sym, own_properties_perm|].
      exact Hp.
Qed.

Lemma first_sorted_own
  (comparefn : string * Entry.t -> string * Entry.t -> order)
  (d : object) (k : string) :
  first_sorted comparefn d = Some k -> In k (map fst d).
Proof.
  unfold first_sorted. intros H.
  destruct (sort comparefn (own_properties d)) as [|[k' e] l] eqn:E;
    [discriminate|].
  simpl in H. injection H as ->.
  apply (in_map fst _ (k, e)).
  eapply Permutation_in; [apply own_properties_perm|].
  eapply Permutation_in; [apply (sort_perm comparefn)|].
  rewrite E. now left.
Qed.

(** Two keys, neither an array index. *)
Lemma first_of_two
  (comparefn : string * Entry.t -> string * Entry.t -> order)
  (k1 k2 : string) (e1 e2 : Entry.t) :
  array_index k1 = None -> array_index k2 = None ->
  first_sorted comparefn [(k1, e1); (k2, e2)]
  = Some (if positive (comparefn (k1, e1) (k2, e2)) then k2 else k1).
Proof.
  intros H1 H2. unfold first_sorted, own_properties, is_index. simpl.
  rewrite H1, H2. simpl. destruct (positive _); reflexivity.
Qed.

(** ** The methods as equations *)

Lemma del_eq (key : string) (c : RotatingCache.t) :
  del key c =
  if truthy (data_get (data c) key) then (deleted key c, Normal 1)
  else (c, Normal 0).
Proof.
  unfold del, bind, gets, modify, ret, _makeKey.
  destruct (truthy (data_get (data c) key)); reflexivity.
Qed.

Lemma ttl_zero_eq (key : string) (c : RotatingCache.t) :
  ttl key 0 c =
  if truthy (data_get (data c) key) then (deleted key c, Normal tt)
  else (c, Throw KeyNotFound).
Proof.
  unfold ttl, bind, gets, throw, ret, _makeKey; simpl.
  destruct (truthy (data_get (data c) key)) eqn:E; simpl; [|reflexivity].
  rewrite del_eq, E. reflexivity.
Qed.

Lemma del_keys_le (key : string) (c : RotatingCache.t) :
  options (fst (del key c)) = options c
  /\ Stats.keys (stats (fst (del key c))) <= Stats.keys (stats c).
Proof.
  rewrite del_eq. destruct (truthy _); simpl; split; try reflexivity; lia.
Qed.

Lemma del_checkTimeout (key : string) (c : RotatingCache.t) :
  checkTimeout (fst (del key c)) = checkTimeout c.
Proof. rewrite del_eq. destruct (truthy _); reflexivity. Qed.

Lemma rotate_state (c : RotatingCache.t) : fst (rotate c) = c.
Proof.
  unfold rotate, bind, gets, ret, throw.
  repeat match goal with |- context [if ?b then _ else _] => destruct b end;
    reflexivity.
Qed.

Lemma rotate_own (c c' : RotatingCache.t) (k : string) :
  rotate c = (c', Normal (Some k)) -> In k (map fst (data c)).
Proof.
  unfold rotate, bind, gets, ret, throw.
  repeat match goal with |- context [if ?b then _ else _] => destruct b end;
    intros H; inversion H; eapply first_sorted_own; eassumption.
Qed.

Lemma make_room_enough (c : RotatingCache.t) :
  Stats.keys (stats c) + 1 <= Options.maxKeys (options c) ->
  make_room c = (c, Normal tt).
Proof.
  intros H. unfold make_room.
  replace (_ >? _) with false; [reflexivity|].
  symmetry. rewrite Z.gtb_ltb. apply Z.ltb_ge. lia.
Qed.

Lemma set_eq (clock : nat -> Z) (key : string) (value : val) (ttl : option Z)
  (c : RotatingCache.t) :
  set clock key value ttl c =
  match make_room (fst (del key c)) with
  | (c', Normal _) => store clock key value ttl c'
  | (c', Throw e) => (c', Throw e)
  | (c', Unmodelled) => (c', Unmodelled)
  end.
Proof.
  assert (Hstore : forall (c1 : RotatingCache.t) (o : Options.t),
    o = options c1 ->
    (modify (with_stats (fun s =>
        Stats.mk (Stats.keys s + 1) (Stats.hits s) (Stats.misses s)
          (Stats.keySize s + _getKeySize key)
          (Number.add (Stats.valueSize s) (_getValueSize o value)))) ;;
     added <- Date_now clock ;;
     lastAccess <- Date_now clock ;;
     write_entry key
       (Entry.mk value (_getValueSize o value)
          (match ttl with Some x => x | None => Options.stdTTL o end)
          added lastAccess)) c1
    = store clock key value ttl c1).
  { intros c1 o ->. unfold store, stored, counted, new_entry, write_entry,
      bind, modify, Date_now, unmodelled, with_data, with_stats; simpl.
    destruct (String.eqb key "__proto__"); reflexivity. }
  unfold set, _makeKey.
  unfold bind at 1. unfold gets at 1.
  unfold bind at 1.
  assert (Hdel : (if truthy (data_get (data c) key) then del key ;; ret tt
                  else ret tt) c = (fst (del key c), Normal tt)).
  { destruct (truthy (data_get (data c) key)) eqn:E;
      unfold bind, ret; rewrite del_eq, E; reflexivity. }
  rewrite Hdel. clear Hdel.
  set (c1 := fst (del key c)) in *.
  unfold bind at 1. unfold gets at 1.
  unfold bind at 1. unfold gets at 1.
  unfold bind at 1.
  unfold make_room.
  destruct (Stats.keys (stats c1) + 1 >? Options.maxKeys (options c1)).
  - unfold bind at 1.
    pose proof (rotate_state c1) as Hr.
    destruct (rotate c1) as [c2 [[k|]|e|]]; simpl in Hr; subst c2;
      try reflexivity.
    unfold bind at 1, ret.
    rewrite del_eq.
    destruct (truthy _); simpl; apply Hstore; reflexivity.
  - unfold ret at 1. apply Hstore. reflexivity.
Qed.

Lemma _expire_eq (clock : nat -> Z) (c : RotatingCache.t) :
  _expire clock c =
  forEach (sweep_key (clock (clockReads c))) (Object_keys (data c))
    (RotatingCache.mk (data c) (options c) (stats c) (checkTimeout c)
       (S (clockReads c))).
Proof. reflexivity. Qed.

Lemma fresh_constructed : constructor DEFAULT_OPTIONS = Normal fresh.
Proof. reflexivity. Qed.

Lemma two_keys_constructed (rotateType : string) :
  includes (ROTATE_TYPES ++ ["none"]) rotateType = true ->
  constructor (Options.mk 2 (-1) 600 true true rotateType 80 80 40 1000)
  = Normal (two_keys rotateType).
Proof.
  intros H. unfold constructor. cbn [Options.rotateType].
  rewrite H. reflexivity.
Qed.

(** ** What the rotation policies evict *)

(** X20: under 'oldest' the entry that [set] picks for eviction is an
    entry of the store with the greatest [added]: the one added last. *)
Lemma oldest_selects_greatest_added (c c' : RotatingCache.t) (k : string) :
  Options.rotateType (options c) = "oldest" ->
  rotate c = (c', Normal (Some k)) ->
  exists e, In (k, e) (data c)
    /\ forall k' e', In (k', e') (data c) -> Entry.added e' <= Entry.added e.
Proof.
  intros Hpolicy. unfold rotate, bind, gets, ret. rewrite Hpolicy. simpl.
  intros [= _ Hk].
  destruct (first_sorted_least by_added
              (fun p => - Entry.added (snd p)) (data c) k) as (e & Hin & Hmax).
  - intros a b _ _. unfold by_added, positive.
    destruct (Z.ltb_spec 0 (Entry.added (snd b) - Entry.added (snd a)));
      destruct (Z.ltb_spec (- Entry.added (snd b)) (- Entry.added (snd a)));
      lia || reflexivity.
  - exact Hk.
  - exists e. split; [exact Hin|]. intros k' e' Hin'.
    specialize (Hmax (k', e') Hin'). simpl in Hmax. lia.
Qed.

(** X21: under 'inactive' the entry that [set] picks for eviction is an
    entry of the store with the greatest [lastAccess]: the one read or
    written last. *)
Lemma inactive_selects_greatest_lastAccess (c c' : RotatingCache.t)
  (k : string) :
  Options.rotateType (options c) = "inactive" ->
  rotate c = (c', Normal (Some k)) ->
  exists e, In (k, e) (data c)
    /\ forall k' e', In (k', e') (data c) ->
         Entry.lastAccess e' <= Entry.lastAccess e.
Proof.
  intros Hpolicy. unfold rotate, bind, gets, ret. rewrite Hpolicy. simpl.
  intros [= _ Hk].
  destruct (first_sorted_least by_lastAccess
              (fun p => - Entry.lastAccess (snd p)) (data c) k)
    as (e & Hin & Hmax).
  - intros a b _ _. unfold by_lastAccess, positive.
    destruct (Z.ltb_spec 0
                (Entry.lastAccess (snd b) - Entry.lastAccess (snd a)));
      destruct (Z.ltb_spec (- Entry.lastAccess (snd b))
                  (- Entry.lastAccess (snd a)));
      lia || reflexivity.
  - exact Hk.
  - exists e. split; [exact Hin|]. intros k' e' Hin'.
    specialize (Hmax (k', e') Hin'). simpl in Hmax. lia.
Qed.

(** X22: under 'expiry', in a store where no entry has the TTL -1, the
    entry that [set] picks for eviction is an entry with the least
    [ttl * ttlScale], whenever it was added. *)
Lemma expiry_selects_least_ttl (c c' : RotatingCache.t) (k : string) :
  Options.rotateType (options c) = "expiry" ->
  (forall k' e', In (k', e') (data c) -> Entry.ttl e' <> -1) ->
  rotate c = (c', Normal (Some k)) ->
  exists e, In (k, e) (data c)
    /\ forall k' e', In (k', e') (data c) ->
         _getTTLDate (options c) e <= _getTTLDate (options c) e'.
Proof.
  intros Hpolicy Hfinite. unfold rotate, bind, gets, ret.
  rewrite Hpolicy. simpl. intros [= _ Hk].
  destruct (first_sorted_least (by_expiry (options c))
              (fun p => _getTTLDate (options c) (snd p)) (data c) k)
    as (e & Hin & Hmin).
  - intros [ka ea] b Ha _. unfold by_expiry, positive. simpl.
    replace (Entry.ttl ea =? -1) with false
      by (symmetry; apply Z.eqb_neq; eapply Hfinite; exact Ha).
    destruct (Z.ltb_spec 0
                (_getTTLDate (options c) ea - _getTTLDate (options c) (snd b)));
      destruct (Z.ltb_spec (_getTTLDate (options c) (snd b))
                  (_getTTLDate (options c) ea));
      lia || reflexivity.
  - exact Hk.
  - exists e. split; [exact Hin|]. intros k' e' Hin'.
    exact (Hmin (k', e') Hin').
Qed.

(** C1 fails on the code.  With [maxKeys: 2] and the policy 'oldest', three
    keys set one after the other at increasing times leave [a] and [c]: the
    entry evicted is [b], the one added last, and the earliest one stays. *)
Theorem oldest_evicts_newest (clock : nat -> Z) :
  clock 0%nat < clock 2%nat ->
  snd ((set clock "a" (VNumber 1) None ;;
        set clock "b" (VNumber 2) None ;;
        set clock "c" (VNumber 3) None ;;
        keys) (two_keys "oldest"))
  = Normal ["a"; "c"].
Proof.
  intros Hclock.
  assert (H : (0 <? clock 2%nat - clock 0%nat) = true)
    by (apply Z.ltb_lt; lia).
  do 2 (erewrite bind_normal by (cbv; reflexivity)).
  rewrite (bind_normal _ _ _
    (RotatingCache.mk
       [("a", Entry.mk (VNumber 1) 8 (-1) (clock 0%nat) (clock 1%nat));
        ("c", Entry.mk (VNumber 3) 8 (-1) (clock 4%nat) (clock 5%nat))]
       (options (two_keys "oldest"))
       (Stats.mk 2 0 0 2 (Number.Int 16)) (Some 600000) 6) tt).
  - reflexivity.
  - rewrite set_eq. cbn -[Z.ltb Z.sub first_sorted].
    rewrite first_of_two by reflexivity.
    unfold by_added, positive. cbn [snd Entry.added]. rewrite H.
    reflexivity.
Qed.

Lemma oldest_evicts_newest_witness :
  snd ((set ticking "a" (VNumber 1) None ;;
        set ticking "b" (VNumber 2) None ;;
        set ticking "c" (VNumber 3) None ;;
        keys) (two_keys "oldest"))
  = Normal ["a"; "c"].
Proof.
  apply (oldest_evicts_newest ticking).
  vm_compute. reflexivity.
Defined.

(** C2 fails on the code.  The example of the specification, with
    [maxKeys: 2] and the policy 'inactive': after [set('a', 1)],
    [set('b', 2)], [get('a')] and [set('c', 3)] the keys are [b] and [c],
    and [a], the entry read last, has been evicted.  This holds whenever
    the clock does not run backwards between [set('b', 2)] and [get('a')]. *)
Theorem inactive_evicts_most_recently_read (clock : nat -> Z) :
  clock 3%nat <= clock 4%nat ->
  snd ((set clock "a" (VNumber 1) None ;;
        set clock "b" (VNumber 2) None ;;
        get clock "a" ;;
        set clock "c" (VNumber 3) None ;;
        keys) (two_keys "inactive"))
  = Normal ["b"; "c"].
Proof.
  intros Hclock.
  assert (H : (0 <? clock 3%nat - clock 4%nat) = false)
    by (apply Z.ltb_ge; lia).
  do 3 (erewrite bind_normal by (cbv; reflexivity)).
  rewrite (bind_normal _ _ _
    (RotatingCache.mk
       [("b", Entry.mk (VNumber 2) 8 (-1) (clock 2%nat) (clock 3%nat));
        ("c", Entry.mk (VNumber 3) 8 (-1) (clock 5%nat) (clock 6%nat))]
       (options (two_keys "inactive"))
       (Stats.mk 2 1 0 2 (Number.Int 16)) (Some 600000) 7) tt).
  - reflexivity.
  - rewrite set_eq. cbn -[Z.ltb Z.sub first_sorted].
    rewrite first_of_two by reflexivity.
    unfold by_lastAccess, positive. cbn [snd Entry.lastAccess]. rewrite H.
    reflexivity.
Qed.

Lemma inactive_evicts_most_recently_read_witness :
  snd ((set ticking "a" (VNumber 1) None ;;
        set ticking "b" (VNumber 2) None ;;
        get ticking "a" ;;
        set ticking "c" (VNumber 3) None ;;
        keys) (two_keys "inactive"))
  = Normal ["b"; "c"].
Proof.
  apply (inactive_evicts_most_recently_read ticking).
  vm_compute. discriminate.
Defined.

(** C3 fails on the code: the comparator of 'expiry' compares
    [ttl * ttlScale] and leaves [added] out.  With [maxKeys: 2], [x] set
    with a TTL of 100 s and [y] set more than 40 s later with a TTL of 60 s,
    [x] is the entry that expires first, and the next [set] evicts [y]. *)
Theorem expiry_compares_ttl_only (clock : nat -> Z) :
  clock 0%nat + 40000 < clock 2%nat ->
  let c := fst ((set clock "x" (VNumber 1) (Some 100) ;;
                 set clock "y" (VNumber 2) (Some 60)) (two_keys "expiry")) in
  let x := Entry.mk (VNumber 1) 8 100 (clock 0%nat) (clock 1%nat) in
  let y := Entry.mk (VNumber 2) 8 60 (clock 2%nat) (clock 3%nat) in
  data c = [("x", x); ("y", y)]
  /\ expires_at (options c) x < expires_at (options c) y
  /\ snd ((set clock "z" (VNumber 3) (Some 10) ;; keys) c) = Normal ["x"; "z"].
Proof.
  intros Hclock c x y.
  assert (Hc : c = RotatingCache.mk [("x", x); ("y", y)]
                     (options (two_keys "expiry"))
                     (Stats.mk 2 0 0 2 (Number.Int 16)) (Some 600000) 4)
    by reflexivity.
  rewrite Hc. split; [reflexivity|]. split.
  - unfold expires_at, _getTTLDate, x, y. simpl. lia.
  - reflexivity.
Qed.

Lemma expiry_compares_ttl_only_witness :
  snd ((set fifty_seconds_apart "z" (VNumber 3) (Some 10) ;; keys)
         (fst ((set fifty_seconds_apart "x" (VNumber 1) (Some 100) ;;
                set fifty_seconds_apart "y" (VNumber 2) (Some 60))
                 (two_keys "expiry"))))
  = Normal ["x"; "z"].
Proof.
  apply (expiry_compares_ttl_only fifty_seconds_apart).
  vm_compute. reflexivity.
Defined.

(** ** The accounting of keys and sizes *)

Lemma del_accounted (key : string) (c : RotatingCache.t) :
  data_get (data c) key <> Inherited ->
  accounted c ->
  accounted (fst (del key c)) /\ lookup key (data (fst (del key c))) = None.
Proof.
  intros Hkey (Hnd & Hk & Hks & Hvs). rewrite del_eq.
  unfold data_get in *.
  destruct (lookup key (data c)) as [e|] eqn:E.
  - simpl. destruct (delete_own key e (data c) Hnd E) as (H1 & H2 & H3).
    split; [|apply lookup_delete_same].
    unfold accounted. simpl. rewrite Hvs, H1, H2, H3, Hk, Hks. simpl.
    repeat split; [apply delete_NoDup, Hnd|].
    unfold data_get. rewrite E. reflexivity.
  - destruct (inherited key); [congruence|]. simpl.
    split; [repeat split; assumption | exact E].
Qed.

Lemma make_room_accounted (key : string) (c : RotatingCache.t) :
  accounted c -> lookup key (data c) = None ->
  accounted (fst (make_room c))
  /\ lookup key (data (fst (make_room c))) = None.
Proof.
  intros Hacc Hkey. unfold make_room.
  destruct (_ >? _); [|auto].
  destruct (rotate c) as [c' [[k|]|e|]] eqn:Er; simpl; auto.
  apply rotate_own in Er.
  destruct (del_accounted k c (own_not_inherited k _ Er) Hacc) as [Ha _].
  split; [exact Ha|]. rewrite del_eq.
  destruct (truthy _); simpl; [|auto].
  destruct (String.eqb key k) eqn:E.
  - apply String.eqb_eq in E. subst. apply lookup_delete_same.
  - apply String.eqb_neq in E. rewrite lookup_delete_other; auto.
Qed.

Lemma store_accounted (clock : nat -> Z) (key : string) (value : val)
  (ttl : option Z) (c : RotatingCache.t) :
  key <> "__proto__" ->
  accounted c -> lookup key (data c) = None ->
  accounted (fst (store clock key value ttl c)).
Proof.
  intros Hkey (Hnd & Hk & Hks & Hvs) Habs. unfold store.
  apply String.eqb_neq in Hkey. rewrite Hkey.
  unfold accounted, stored, counted, with_data. simpl.
  rewrite assign_absent by assumption.
  destruct (sizes_app (data c) [(key, new_entry clock value ttl c)])
    as [H1 H2].
  rewrite H1, H2, Hk, Hks, Hvs, length_app, map_app. simpl.
  repeat split; try (f_equal; lia); try lia.
  apply NoDup_app; [exact Hnd | repeat constructor; simpl; tauto |].
  intros k Hin [<- | []]. apply lookup_None in Habs. contradiction.
Qed.

Lemma set_accounted (clock : nat -> Z) (key : string) (value : val)
  (ttl : option Z) (c : RotatingCache.t) :
  inherited key = false ->
  accounted c -> accounted (fst (set clock key value ttl c)).
Proof.
  intros Hkey Hacc. rewrite set_eq.
  destruct (del_accounted key c (ordinary_not_inherited key _ Hkey) Hacc)
    as [Ha Hl].
  destruct (make_room_accounted key _ Ha Hl) as (Ha' & Hl').
  destruct (make_room (fst (del key c))) as [c' [[]|e|]]; simpl in *; auto.
  apply store_accounted; auto.
  intros ->. discriminate.
Qed.

(** For keys that [Object.prototype] does not have, the stats are the
    aggregates over the live entries after every sequence of [set] and
    [del], eviction and overwriting included. *)
Lemma accounting_invariant (clock : nat -> Z) (o : Options.t)
  (c : RotatingCache.t) (ops : list operation) :
  constructor o = Normal c ->
  Forall (fun op => inherited (operation_key op) = false) ops ->
  accounted (fold_left (perform clock) ops c).
Proof.
  intros Hc Hops.
  assert (Hacc : accounted c).
  { unfold constructor in Hc. destruct (negb _); [discriminate|].
    injection Hc as <-. repeat split. constructor. }
  clear Hc. revert c Hacc.
  induction Hops as [|op ops Hop _ IH]; intros c Hacc; simpl; [exact Hacc|].
  apply IH. destruct op as [key value ttl | key]; simpl in *.
  - apply set_accounted; assumption.
  - apply del_accounted; [|assumption].
    apply ordinary_not_inherited, Hop.
Qed.

(** C4 fails on the code for a key that names a member of [Object.prototype]:
    on a new cache [set('toString', 1)] finds the inherited method under
    [this.data[key]], lets [del] take a key off the stats that was never
    counted, and leaves one entry in the store with [stats.keys = 0],
    [stats.keySize = 0] and [stats.valueSize] not a number. *)
Theorem set_inherited_key_miscounts (clock : nat -> Z) :
  let c := fst (set clock "toString" (VNumber 1) None fresh) in
  snd (set clock "toString" (VNumber 1) None fresh) = Normal tt
  /\ Object_keys (data c) = ["toString"]
  /\ Stats.keys (stats c) = 0
  /\ Stats.keySize (stats c) = 0
  /\ Stats.valueSize (stats c) = Number.NaN.
Proof. cbv. repeat split. Qed.

(** ** set with a TTL of 0 *)

(** C5, as stated, fails: after [set('k', 1, 0)] on a new cache the key is
    in the store. *)
Lemma set_ttl_zero_key_present :
  lookup "k" (data (fst (set ticking "k" (VNumber 1) (Some 0) fresh)))
  <> None.
Proof. vm_compute. discriminate. Qed.

(** C5, amended: [set(key, value, 0)] stores the entry, it does not delete.
    For every key but [__proto__]: the call completes when the store has
    room, and whenever it completes the key is present afterwards, with the
    value given and a [ttl] of 0. *)
Theorem set_ttl_zero_stores (clock : nat -> Z) (key : string) (value : val)
  (c : RotatingCache.t) :
  key <> "__proto__" ->
  (Stats.keys (stats c) + 1 <= Options.maxKeys (options c) ->
   snd (set clock key value (Some 0) c) = Normal tt)
  /\ (succeeded (snd (set clock key value (Some 0) c)) = true ->
      exists e,
        lookup key (data (fst (set clock key value (Some 0) c))) = Some e
        /\ Entry.ttl e = 0 /\ Entry.value e = value).
Proof.
  intros Hkey. apply String.eqb_neq in Hkey.
  rewrite set_eq. split.
  - intros Hroom. destruct (del_keys_le key c) as [Ho Hk].
    rewrite make_room_enough by (rewrite Ho; lia).
    unfold store. rewrite Hkey. reflexivity.
  - destruct (make_room (fst (del key c))) as [c' [[]|e|]];
      try discriminate.
    unfold store. rewrite Hkey. simpl. intros _.
    eexists. split; [apply lookup_assign_same|]. split; reflexivity.
Qed.

Lemma set_ttl_zero_stores_witness :
  snd (set ticking "k" (VNumber 1) (Some 0) fresh) = Normal tt
  /\ exists e,
       lookup "k" (data (fst (set ticking "k" (VNumber 1) (Some 0) fresh)))
       = Some e
       /\ Entry.ttl e = 0 /\ Entry.value e = VNumber 1.
Proof.
  destruct (set_ttl_zero_stores ticking "k" (VNumber 1) fresh) as [H1 H2];
    [discriminate|].
  assert (H : snd (set ticking "k" (VNumber 1) (Some 0) fresh) = Normal tt)
    by (apply H1; vm_compute; discriminate).
  split; [exact H|]. apply H2. rewrite H. reflexivity.
Defined.

(** ** The timer of the sweep *)

Lemma _expire_checkTimeout (clock : nat -> Z) (c : RotatingCache.t) :
  checkTimeout (fst (_expire clock c)) = checkTimeout c.
Proof.
  rewrite _expire_eq.
  apply (forEach_preserves (fun c' => checkTimeout c' = checkTimeout c));
    [|reflexivity].
  intros key c' Hc'. unfold sweep_key, bind, gets.
  destruct (data_get (data c') key) as [e| |]; simpl; try assumption.
  destruct (_ && _); simpl; try assumption.
  pose proof (del_checkTimeout key c') as Hd.
  destruct (del key c') as [c'' [?|?|]]; simpl in *; congruence.
Qed.

(** The constructor schedules the sweep: one timer, for
    [checkperiod * ttlScale] ms. *)
Lemma constructor_schedules_sweep (o : Options.t) (c : RotatingCache.t) :
  constructor o = Normal c ->
  checkTimeout c = Some (Options.checkperiod o * Options.ttlScale o).
Proof.
  unfold constructor. destruct (negb _); [discriminate|].
  intros [= <-]. reflexivity.
Qed.

(** After [close()] the timer does not fire the sweep. *)
Lemma close_cancels_sweep (clock : nat -> Z) (c : RotatingCache.t) :
  timer_fires clock (fst (close c)) = (fst (close c), Normal tt).
Proof. reflexivity. Qed.

(** C6 fails on the code: the sweep is scheduled once, by the constructor,
    and [_expire] schedules nothing.  In every cache with the timer pending,
    when the timer fires the sweep runs, and afterwards no timer is pending,
    although the cache was not closed: no later firing runs the sweep
    again. *)
Theorem sweep_fires_once (clock : nat -> Z) (c : RotatingCache.t)
  (delay : Z) :
  checkTimeout c = Some delay ->
  timer_fires clock c = _expire clock (with_checkTimeout None c)
  /\ checkTimeout (fst (timer_fires clock c)) = None
  /\ timer_fires clock (fst (timer_fires clock c))
     = (fst (timer_fires clock c), Normal tt).
Proof.
  intros Hpending.
  assert (Hfire : timer_fires clock c
                  = _expire clock (with_checkTimeout None c)).
  { unfold timer_fires, bind, gets, modify. rewrite Hpending. reflexivity. }
  rewrite Hfire. split; [reflexivity|].
  assert (H : checkTimeout (fst (_expire clock (with_checkTimeout None c)))
              = None)
    by (rewrite _expire_checkTimeout; reflexivity).
  split; [exact H|].
  generalize dependent (fst (_expire clock (with_checkTimeout None c))).
  intros c1 H. unfold timer_fires, bind, gets. rewrite H. reflexivity.
Qed.

(** A cache with three entries, five seconds after they were added: the
    timer fires, [a] is swept, and that was the last sweep. *)
Lemma sweep_fires_once_witness :
  Object_keys (data (fst (timer_fires (fun _ => 5000) three_entries)))
  = ["b"; "c"]
  /\ checkTimeout (fst (timer_fires (fun _ => 5000) three_entries)) = None
  /\ timer_fires (fun _ => 5000)
       (fst (timer_fires (fun _ => 5000) three_entries))
     = (fst (timer_fires (fun _ => 5000) three_entries), Normal tt).
Proof.
  destruct (sweep_fires_once (fun _ => 5000) three_entries 600000 eq_refl)
    as (_ & H1 & H2).
  split; [reflexivity|]. split; [exact H1 | exact H2].
Defined.

(** ** The expiry sweep *)

(** The keys of [ks] whose entries have expired are deleted, one by one. *)
Lemma sweep_loop (now : Z) (ks : list string) :
  forall c : RotatingCache.t,
    NoDup ks ->
    (forall k, In k ks -> In k (map fst (data c))) ->
    NoDup (map fst (data c)) ->
    snd (forEach (sweep_key now) ks c) = Normal tt
    /\ data (fst (forEach (sweep_key now) ks c))
       = filter (fun p => negb (existsb (String.eqb (fst p)) ks
                                && expired (options c) now (snd p)))
                (data c).
Proof.
  induction ks as [|k ks IH]; intros c Hks Hin Hnd.
  - simpl. split; [reflexivity|].
    symmetry. apply forallb_filter_id. apply forallb_forall. reflexivity.
  - inversion Hks as [|? ? Hk Hks']; subst.
    assert (Hown : exists e, lookup k (data c) = Some e).
    { destruct (lookup k (data c)) as [e|] eqn:E; [eauto|].
      apply lookup_None in E. exfalso. apply E, Hin. now left. }
    destruct Hown as [e He].
    assert (Hstep : sweep_key now k c
                    = (if expired (options c) now e then deleted k c else c,
                       Normal tt)).
    { unfold sweep_key, bind, gets, data_get. rewrite He.
      change ((Entry.ttl e >? -1)
              && (Entry.added e + _getTTLDate (options c) e <? now))
        with (expired (options c) now e).
      destruct (expired (options c) now e); [|reflexivity].
      rewrite del_eq. unfold data_get. rewrite He. reflexivity. }
    cbn [forEach]. rewrite (bind_normal _ _ _ _ _ Hstep). clear Hstep.
    destruct (expired (options c) now e) eqn:Ex.
    + destruct (IH (deleted k c)) as [Hr Hd]; auto.
      { intros k' Hk'. simpl. apply delete_keys. split.
        - intros ->. contradiction.
        - apply Hin. now right. }
      { apply delete_NoDup, Hnd. }
      split; [exact Hr|]. rewrite Hd. simpl. unfold delete.
      rewrite filter_twice. apply filter_ext_in.
      intros [k' e'] Hp. simpl.
      destruct (String.eqb k' k) eqn:E.
      * apply String.eqb_eq in E. subst k'.
        rewrite String.eqb_refl. simpl.
        assert (e' = e) by (apply In_lookup in Hp; congruence).
        subst e'. rewrite Ex. reflexivity.
      * rewrite String.eqb_sym, E. simpl.
        destruct (existsb _ ks); reflexivity.
    + destruct (IH c) as [Hr Hd]; auto.
      { intros k' Hk'. apply Hin. now right. }
      split; [exact Hr|]. rewrite Hd. apply filter_ext_in.
      intros [k' e'] Hp. simpl.
      destruct (String.eqb k' k) eqn:E; [|reflexivity].
      apply String.eqb_eq in E. subst k'.
      assert (e' = e) by (apply In_lookup in Hp; congruence).
      subst e'. rewrite Ex, !andb_false_r. reflexivity.
Qed.

(** C7: one pass of the sweep, at the time [now] that it reads from the
    clock, completes and removes exactly the entries with [ttl > -1] and
    [added + ttl * ttlScale < now]; the other entries stay as they are and
    in their order, those with [ttl = -1] among them. *)
Theorem sweep_removes_exactly_the_expired (clock : nat -> Z)
  (c : RotatingCache.t) :
  NoDup (map fst (data c)) ->
  let now := clock (clockReads c) in
  snd (_expire clock c) = Normal tt
  /\ data (fst (_expire clock c))
     = filter (fun p => negb (expired (options c) now (snd p))) (data c)
  /\ (forall key e, In (key, e) (data c) -> Entry.ttl e = -1 ->
        In (key, e) (data (fst (_expire clock c)))).
Proof.
  intros Hnd now. rewrite _expire_eq. fold now.
  match goal with |- context [forEach _ _ ?c0] =>
    destruct (sweep_loop now (Object_keys (data c)) c0) as [Hr Hd]
  end.
  - eapply Permutation_NoDup; [apply Permutation_sym, Object_keys_perm|].
    exact Hnd.
  - intros k Hk. simpl.
    eapply Permutation_in; [apply Object_keys_perm | exact Hk].
  - exact Hnd.
  - simpl in Hd.
    assert (Heq : data (fst (forEach (sweep_key now) (Object_keys (data c))
                       (RotatingCache.mk (data c) (options c) (stats c)
                          (checkTimeout c) (S (clockReads c)))))
                  = filter (fun p => negb (expired (options c) now (snd p)))
                      (data c)).
    { rewrite Hd. apply filter_ext_in. intros [k e] Hp. simpl.
      replace (existsb (String.eqb k) (Object_keys (data c))) with true;
        [reflexivity|].
      symmetry. apply existsb_exists. exists k. split.
      - eapply Permutation_in;
          [apply Permutation_sym, Object_keys_perm|].
        apply (in_map fst) in Hp. exact Hp.
      - apply String.eqb_refl. }
    split; [exact Hr|]. split; [exact Heq|].
    intros key e Hin Httl. rewrite Heq. apply filter_In. split; [exact Hin|].
    unfold expired. simpl. rewrite Httl. reflexivity.
Qed.

(** Read five seconds after the entries were added, [a] has expired and
    [c] has not. *)
Lemma sweep_removes_exactly_the_expired_witness :
  snd (_expire (fun _ => 5000) three_entries) = Normal tt
  /\ data (fst (_expire (fun _ => 5000) three_entries))
     = [("b", Entry.mk (VNumber 2) 8 (-1) 0 0);
        ("c", Entry.mk (VNumber 3) 8 100 0 0)].
Proof.
  destruct (sweep_removes_exactly_the_expired (fun _ => 5000) three_entries)
    as (Hr & Hd & _).
  - simpl. repeat constructor; simpl; intuition discriminate.
  - split; [exact Hr|]. rewrite Hd. reflexivity.
Defined.

(** ** When mset refuses a batch *)

(** The check that [mset] makes first, under 'none' and under any policy
    that is not one of [ROTATE_TYPES]. *)
Lemma mset_refuses (clock : nat -> Z) (batch : list item)
  (c : RotatingCache.t) :
  includes ROTATE_TYPES (Options.rotateType (options c)) = false ->
  Stats.keys (stats c) + Z.of_nat (List.length batch)
    > Options.maxKeys (options c) ->
  mset clock batch c = (c, Throw CapacityExceeded).
Proof.
  intros Hpolicy Hover.
  unfold mset, bind, gets, throw. rewrite Hpolicy.
  replace (_ >? _) with true by (symmetry; apply Z.gtb_lt; lia).
  reflexivity.
Qed.

(** C8: under 'none', a batch that would push the key count over [maxKeys]
    makes [mset] throw CapacityExceeded before anything is inserted: the
    cache, entries and stats, is exactly as it was. *)
Theorem mset_none_over_capacity (clock : nat -> Z) (batch : list item)
  (c : RotatingCache.t) :
  Options.rotateType (options c) = "none" ->
  Stats.keys (stats c) + Z.of_nat (List.length batch)
    > Options.maxKeys (options c) ->
  mset clock batch c = (c, Throw CapacityExceeded).
Proof.
  intros Hnone Hover. apply mset_refuses; [|exact Hover].
  rewrite Hnone. reflexivity.
Qed.

(** The example of the specification: three entries against [maxKeys = 2]
    leave the empty store empty. *)
Lemma mset_none_over_capacity_witness :
  mset ticking
    [mk_item "a" (VNumber 1) None; mk_item "b" (VNumber 2) None;
     mk_item "c" (VNumber 3) None]
    (two_keys "none")
  = (two_keys "none", Throw CapacityExceeded)
  /\ data (two_keys "none") = [].
Proof.
  split; [|reflexivity].
  apply mset_none_over_capacity; [reflexivity | simpl; lia].
Defined.

Lemma set_with_room (clock : nat -> Z) (key : string) (value : val)
  (ttl : option Z) (c : RotatingCache.t) :
  Stats.keys (stats c) + 1 <= Options.maxKeys (options c) ->
  (snd (set clock key value ttl c) = Normal tt
   \/ snd (set clock key value ttl c) = Unmodelled)
  /\ options (fst (set clock key value ttl c)) = options c
  /\ Stats.keys (stats (fst (set clock key value ttl c)))
     <= Stats.keys (stats c) + 1.
Proof.
  intros Hroom. rewrite set_eq.
  destruct (del_keys_le key c) as [Ho Hk].
  rewrite make_room_enough by (rewrite Ho; lia).
  unfold store. destruct (String.eqb key "__proto__"); simpl;
    (split; [tauto|]); (split; [exact Ho | lia]).
Qed.

Lemma forEach_set_with_room (clock : nat -> Z) (batch : list item) :
  forall c : RotatingCache.t,
    Stats.keys (stats c) + Z.of_nat (List.length batch)
      <= Options.maxKeys (options c) ->
    forall e,
      snd (forEach (fun i => set clock (item_key i) (item_value i) (item_ttl i))
             batch c) <> Throw e.
Proof.
  induction batch as [|i batch IH]; intros c Hroom e.
  - discriminate.
  - cbn [forEach List.length] in *. unfold bind.
    destruct (set_with_room clock (item_key i) (item_value i) (item_ttl i) c)
      as (Hr & Ho & Hk); [lia|].
    destruct (set clock (item_key i) (item_value i) (item_ttl i) c)
      as [c' r]. simpl in *.
    destruct Hr as [-> | ->]; [|discriminate].
    apply IH. rewrite Ho. lia.
Qed.

(** C10: under 'none', [mset] throws CapacityExceeded exactly when
    [stats.keys] plus the number of elements of the batch exceeds [maxKeys];
    every element counts, whether or not its key is in the store already. *)
Theorem mset_none_counts_every_element (clock : nat -> Z)
  (batch : list item) (c : RotatingCache.t) :
  Options.rotateType (options c) = "none" ->
  snd (mset clock batch c) = Throw CapacityExceeded
  <-> Stats.keys (stats c) + Z.of_nat (List.length batch)
        > Options.maxKeys (options c).
Proof.
  intros Hnone. split.
  - intros Hthrow.
    destruct (Z_gt_le_dec (Stats.keys (stats c) + Z.of_nat (List.length batch))
                (Options.maxKeys (options c))) as [Hgt | Hle]; [exact Hgt|].
    exfalso. revert Hthrow. unfold mset, bind, gets.
    replace (_ >? _) with false
      by (symmetry; rewrite Z.gtb_ltb; apply Z.ltb_ge; lia).
    simpl. apply forEach_set_with_room. exact Hle.
  - intros Hover. rewrite mset_refuses; [reflexivity | | exact Hover].
    rewrite Hnone. reflexivity.
Qed.

(** A batch that only overwrites [a] and [b] in a full store is refused,
    although setting the two keys one by one succeeds and leaves two keys. *)
Lemma mset_none_counts_every_element_witness :
  snd (mset ticking
         [mk_item "a" (VNumber 10) None; mk_item "b" (VNumber 20) None]
         full_of_a_b)
  = Throw CapacityExceeded
  /\ snd ((set ticking "a" (VNumber 10) None ;;
           set ticking "b" (VNumber 20) None ;;
           keys) full_of_a_b)
     = Normal ["a"; "b"].
Proof.
  split; [|reflexivity].
  apply (mset_none_counts_every_element ticking); [reflexivity|].
  vm_compute. reflexivity.
Defined.

(** ** ttl(key, 0) and del(key) *)

(** C9, as stated, fails: on a key that is absent [del] returns 0 and
    [ttl(key, 0)] throws, so the two calls do not have the same
    success/failure outcome. *)
Lemma ttl_zero_del_outcomes_differ :
  succeeded (snd (ttl "a" 0 fresh)) <> succeeded (snd (del "a" fresh)).
Proof. vm_compute. discriminate. Qed.

(** C9, amended: for every key and every cache, [ttl(key, 0)] and [del(key)]
    leave the same cache (entries and stats); when [this.data[key]] is
    there both succeed and [del] returns 1, and when it is not the cache is
    unchanged, [del] returns 0 and [ttl] throws KeyNotFound. *)
Theorem ttl_zero_del (key : string) (c : RotatingCache.t) :
  fst (ttl key 0 c) = fst (del key c)
  /\ snd (ttl key 0 c) =
       (if truthy (data_get (data c) key) then Normal tt
        else Throw KeyNotFound)
  /\ snd (del key c) =
       (if truthy (data_get (data c) key) then Normal 1 else Normal 0)
  /\ fst (del key c) =
       (if truthy (data_get (data c) key) then deleted key c else c).
Proof.
  rewrite ttl_zero_eq, del_eq.
  destruct (truthy (data_get (data c) key)); simpl; auto.
Qed.

(** * Further properties of the methods *)

(** ** The methods as equations, continued *)

Lemma get_eq (clock : nat -> Z) (key : string) (c : RotatingCache.t) :
  get clock key c = read clock key c.
Proof.
  unfold read.
  cbv beta iota delta [get _makeKey bind gets modify Date_now write_field ret
    throw unmodelled with_stats with_data counted_hit counted_miss data_get].
  cbn [data options stats checkTimeout clockReads].
  destruct (lookup key (data c)) as [e|] eqn:E;
    [|destruct (inherited key) eqn:I];
    cbn [truthy value_of deepCopy data options stats checkTimeout clockReads];
    rewrite ?E, ?I;
    cbn [truthy value_of deepCopy data options stats checkTimeout clockReads].
  - destruct (Options.useClones (options c)); reflexivity.
  - destruct (String.eqb key "__proto__"); [reflexivity|].
    cbn [options]. destruct (Options.useClones (options c)); reflexivity.
  - reflexivity.
Qed.

Lemma getTtl_eq (key : string) (c : RotatingCache.t) :
  getTtl key c =
  match data_get (data c) key with
  | Own e => (c, Normal (Entry.ttl e))
  | Inherited => (c, Unmodelled)
  | Absent => (c, Throw KeyNotFound)
  end.
Proof.
  unfold getTtl, _makeKey, bind, gets, throw, ret, unmodelled.
  destruct (data_get (data c) key); reflexivity.
Qed.

(** A [set] that returns has gone through the capacity check and stored
    the entry. *)
Lemma set_normal (clock : nat -> Z) (key : string) (value : val)
  (ttl : option Z) (c c1 : RotatingCache.t) :
  set clock key value ttl c = (c1, Normal tt) ->
  key <> "__proto__"
  /\ exists c', make_room (fst (del key c)) = (c', Normal tt)
                /\ c1 = stored clock key value ttl c'.
Proof.
  rewrite set_eq.
  destruct (make_room (fst (del key c))) as [c' [[]|e|]]; try discriminate.
  unfold store. destruct (String.eqb key "__proto__") eqn:E;
    [discriminate|].
  intros [= <-]. split; [apply String.eqb_neq, E|]. eauto.
Qed.

Lemma make_room_options (c : RotatingCache.t) :
  options (fst (make_room c)) = options c
  /\ clockReads (fst (make_room c)) = clockReads c
  /\ checkTimeout (fst (make_room c)) = checkTimeout c.
Proof.
  unfold make_room. destruct (_ >? _); [|auto].
  destruct (rotate c) as [c' [[k|]|e|]]; simpl; auto.
  rewrite del_eq. destruct (truthy _); simpl; auto.
Qed.

Lemma del_frame (key : string) (c : RotatingCache.t) :
  options (fst (del key c)) = options c
  /\ clockReads (fst (del key c)) = clockReads c
  /\ Stats.hits (stats (fst (del key c))) = Stats.hits (stats c)
  /\ Stats.misses (stats (fst (del key c))) = Stats.misses (stats c).
Proof. rewrite del_eq. destruct (truthy _); simpl; auto. Qed.

(** ** set, then get *)



(** ** Own properties, continued *)

Lemma lookup_assign_other (key k : string) (e : Entry.t) (d : object) :
  k <> key -> lookup k (assign key e d) = lookup k d.
Proof.
  intros Hne. apply String.eqb_neq in Hne.
  induction d as [|[k' e'] d IH]; simpl.
  - rewrite Hne. reflexivity.
  - destruct (String.eqb key k') eqn:E; simpl; [|rewrite IH; reflexivity].
    apply String.eqb_eq in E. subst k'. rewrite Hne. reflexivity.
Qed.

(** Replacing the entry of a key that is there keeps the keys, their order
    and, for an entry of the same size, the sizes. *)
Lemma assign_present (key : string) (e e0 : Entry.t) (d : object) :
  lookup key d = Some e0 ->
  map fst (assign key e d) = map fst d
  /\ key_sizes (assign key e d) = key_sizes d
  /\ (Entry.size e = Entry.size e0 ->
      value_sizes (assign key e d) = value_sizes d).
Proof.
  induction d as [|[k e'] d IH]; [discriminate|]. simpl.
  destruct (String.eqb key k) eqn:E; simpl.
  - intros [= ->]. repeat split. intros ->. reflexivity.
  - intros H. destruct (IH H) as (H1 & H2 & H3).
    rewrite H1, H2. repeat split. intros Hs. rewrite H3; auto.
Qed.

Section SortByKey.

Context {A B : Type} (f : A -> B) (measure : B -> Z).

Let comparefn (a b : A) : order := Finite (measure (f a) - measure (f b)).




End SortByKey.


(** ** get *)



(** ** del and mdel *)

(** X3: [del] removes the key and only the key.  The entries of the other
    keys stay as they are; for a key that is in the store [del] returns 1
    and [stats.keys] goes down by one, and for a key that [this.data[key]]
    does not have it returns 0 and leaves the cache as it is. *)
Theorem del_removes_only_the_key (key : string) (c : RotatingCache.t) :
  lookup key (data (fst (del key c))) = None
  /\ (forall k, k <> key ->
        lookup k (data (fst (del key c))) = lookup k (data c))
  /\ (lookup key (data c) <> None ->
      snd (del key c) = Normal 1
      /\ Stats.keys (stats (fst (del key c))) = Stats.keys (stats c) - 1)
  /\ (data_get (data c) key = Absent -> del key c = (c, Normal 0)).
Proof.
  rewrite del_eq. unfold data_get.
  destruct (lookup key (data c)) as [e|] eqn:E; cbn [truthy].
  - split; [apply lookup_delete_same|].
    split; [intros k Hk; apply lookup_delete_other, Hk|].
    split; [intros _; split; reflexivity | discriminate].
  - destruct (inherited key); cbn [truthy fst snd].
    + split; [apply lookup_delete_same|].
      split; [intros k Hk; apply lookup_delete_other, Hk|].
      split; [intros Hn; contradiction | discriminate].
    + split; [exact E|]. split; [reflexivity|].
      split; [intros Hn; contradiction | reflexivity].
Qed.

Lemma mdel_loop (ks : list string) :
  forall (s : Z) (c : RotatingCache.t),
  exists n,
    snd (reduce (fun s k => n <- del k ;; ret (s + n)) ks s c)
    = Normal (s + n)
    /\ 0 <= n <= Z.of_nat (List.length ks)
    /\ Stats.keys
         (stats (fst (reduce (fun s k => n <- del k ;; ret (s + n)) ks s c)))
       = Stats.keys (stats c) - n
    /\ (forall k,
          lookup k
            (data (fst (reduce (fun s k => n <- del k ;; ret (s + n)) ks s c)))
          = if existsb (String.eqb k) ks then None else lookup k (data c))
    /\ (accounted c -> (forall k, In k ks -> inherited k = false) ->
        accounted
          (fst (reduce (fun s k => n <- del k ;; ret (s + n)) ks s c))).
Proof.
  induction ks as [|k ks IH]; intros s c.
  - exists 0. simpl. rewrite Z.add_0_r.
    split; [reflexivity|]. split; [lia|]. split; [lia|]. auto.
  - cbn [reduce].
    assert (Hstep : (n <- del k ;; ret (s + n)) c
                    = (if truthy (data_get (data c) k) then deleted k c else c,
                       Normal (s + if truthy (data_get (data c) k)
                                   then 1 else 0))).
    { unfold bind, ret. rewrite del_eq.
      destruct (truthy (data_get (data c) k)); reflexivity. }
    rewrite (bind_normal _ _ _ _ _ Hstep). clear Hstep.
    destruct (truthy (data_get (data c) k)) eqn:E.
    + destruct (IH (s + 1) (deleted k c)) as (n & Hr & Hn & Hk & Hl & Ha).
      exists (1 + n). rewrite Z.add_assoc.
      split; [exact Hr|]. split; [cbn [List.length]; rewrite Nat2Z.inj_succ; lia|].
      split; [rewrite Hk; unfold deleted; cbn [stats Stats.keys]; lia|]. split.
      * intros k'. rewrite Hl. simpl.
        destruct (String.eqb k' k) eqn:Ek; simpl.
        -- apply String.eqb_eq in Ek. subst k'.
           rewrite lookup_delete_same.
           destruct (existsb _ ks); reflexivity.
        -- apply String.eqb_neq in Ek.
           rewrite lookup_delete_other by exact Ek. reflexivity.
      * intros Hacc Hord. apply Ha; [|intros k' Hk'; apply Hord; now right].
        pose proof (del_accounted k c
                      (ordinary_not_inherited k _ (Hord k (or_introl eq_refl)))
                      Hacc) as [Hd _].
        rewrite del_eq, E in Hd. exact Hd.
    + destruct (IH (s + 0) c) as (n & Hr & Hn & Hk & Hl & Ha).
      exists n. replace (s + n) with (s + 0 + n) by lia.
      split; [exact Hr|]. split; [cbn [List.length]; rewrite Nat2Z.inj_succ; lia|].
      split; [exact Hk|]. split.
      * intros k'. rewrite Hl. simpl.
        destruct (String.eqb k' k) eqn:Ek; simpl; [|reflexivity].
        apply String.eqb_eq in Ek. subst k'.
        unfold data_get in E. destruct (lookup k (data c)); [discriminate|].
        destruct (existsb _ ks); reflexivity.
      * intros Hacc Hord. apply Ha; [exact Hacc|].
        intros k' Hk'. apply Hord. now right.
Qed.

(** X4: on a store whose stats are in step, [mdel] of keys that
    [Object.prototype] does not have returns the number of entries that it
    removed: keys that are absent or repeated count 0.  Afterwards none of
    the keys is in the store, the other entries are as they were, and the
    stats are in step. *)
Theorem mdel_counts_the_removed (ks : list string) (c : RotatingCache.t) :
  accounted c ->
  (forall k, In k ks -> inherited k = false) ->
  exists n,
    snd (mdel ks c) = Normal n
    /\ Z.of_nat (List.length (data (fst (mdel ks c))))
       = Z.of_nat (List.length (data c)) - n
    /\ (forall k, lookup k (data (fst (mdel ks c)))
                  = if existsb (String.eqb k) ks then None
                    else lookup k (data c))
    /\ accounted (fst (mdel ks c)).
Proof.
  intros Hacc Hord. unfold mdel.
  destruct (mdel_loop ks 0 c) as (n & Hr & _ & Hk & Hl & Ha).
  exists n. split; [exact Hr|].
  specialize (Ha Hacc Hord).
  destruct Hacc as (_ & Hn & _).
  split; [|split; [exact Hl | exact Ha]].
  destruct Ha as (_ & Hn' & _). rewrite <- Hn', <- Hn. exact Hk.
Qed.

Lemma three_entries_accounted : accounted three_entries.
Proof.
  repeat split. simpl. repeat constructor; simpl; intuition discriminate.
Qed.

Lemma mdel_counts_the_removed_witness :
  snd (mdel ["a"; "x"; "c"; "a"] three_entries) = Normal 2
  /\ Object_keys (data (fst (mdel ["a"; "x"; "c"; "a"] three_entries)))
     = ["b"].
Proof.
  destruct (mdel_counts_the_removed ["a"; "x"; "c"; "a"] three_entries)
    as (n & Hr & Hn & _).
  - exact three_entries_accounted.
  - intros k [<- | [<- | [<- | [<- | []]]]]; reflexivity.
  - split; [|reflexivity].
    rewrite Hr. f_equal.
    change (Z.of_nat 1 = Z.of_nat 3 - n) in Hn. lia.
Defined.

(** ** What get leaves as it is *)





(** ** mget *)





(** ** ttl and getTtl *)

Lemma stored_options (clock : nat -> Z) (key : string) (value : val)
  (ttl : option Z) (c c1 : RotatingCache.t) :
  set clock key value ttl c = (c1, Normal tt) ->
  exists c', c1 = stored clock key value ttl c'
             /\ options c' = options c
             /\ clockReads c' = clockReads c.
Proof.
  intros Hset. apply set_normal in Hset as (_ & c' & Hroom & ->).
  exists c'. split; [reflexivity|].
  destruct (make_room_options (fst (del key c))) as (Ho & Hr & _).
  destruct (del_frame key c) as (Ho' & Hr' & _).
  rewrite Hroom in Ho, Hr. simpl in Ho, Hr. split; congruence.
Qed.

(** X6: after a [set] that returns, [getTtl] gives the TTL given to [set],
    or [stdTTL] when none was given, and changes nothing. *)
Theorem set_then_getTtl (clock : nat -> Z) (key : string) (value : val)
  (ttl : option Z) (c c1 : RotatingCache.t) :
  set clock key value ttl c = (c1, Normal tt) ->
  getTtl key c1 = (c1, Normal (stored_ttl ttl c)).
Proof.
  intros Hset. apply stored_options in Hset as (c' & -> & Ho & _).
  rewrite getTtl_eq. unfold data_get.
  assert (H : lookup key (data (stored clock key value ttl c'))
              = Some (new_entry clock value ttl c'))
    by apply lookup_assign_same.
  rewrite H. unfold stored_ttl, new_entry. simpl. rewrite Ho. reflexivity.
Qed.

Lemma set_then_getTtl_witness :
  getTtl "k" (fst (set ticking "k" (VNumber 1) None fresh))
  = (fst (set ticking "k" (VNumber 1) None fresh), Normal (-1))
  /\ getTtl "k" (fst (set ticking "k" (VNumber 1) (Some 30) fresh))
     = (fst (set ticking "k" (VNumber 1) (Some 30) fresh), Normal 30).
Proof.
  split.
  - apply (set_then_getTtl ticking "k" (VNumber 1) None fresh). reflexivity.
  - apply (set_then_getTtl ticking "k" (VNumber 1) (Some 30) fresh).
    reflexivity.
Defined.

(** X7: [ttl(key, seconds)] with [seconds] other than 0, on a key that is
    in the store, replaces the TTL and nothing else: [getTtl] returns
    [seconds], the entry keeps its value, size, [added] and [lastAccess],
    the other entries and the stats are as they were. *)
Theorem ttl_then_getTtl (key : string) (seconds : Z) (e : Entry.t)
  (c : RotatingCache.t) :
  lookup key (data c) = Some e ->
  seconds <> 0 ->
  snd (ttl key seconds c) = Normal tt
  /\ getTtl key (fst (ttl key seconds c))
     = (fst (ttl key seconds c), Normal seconds)
  /\ lookup key (data (fst (ttl key seconds c)))
     = Some (Entry.mk (Entry.value e) (Entry.size e) seconds (Entry.added e)
               (Entry.lastAccess e))
  /\ (forall k, k <> key ->
        lookup k (data (fst (ttl key seconds c))) = lookup k (data c))
  /\ stats (fst (ttl key seconds c)) = stats c.
Proof.
  intros Hown Hs. apply Z.eqb_neq in Hs.
  assert (Httl : ttl key seconds c
                 = (with_data (assign key (Entry.with_ttl seconds e)) c,
                    Normal tt)).
  { unfold ttl, _makeKey. unfold bind at 1. unfold gets at 1.
    unfold data_get at 1. rewrite Hown. cbn [truthy negb]. rewrite Hs.
    unfold write_field, bind, gets, modify, data_get. rewrite Hown.
    reflexivity. }
  rewrite Httl. cbn [fst snd].
  assert (Hl : lookup key (data (with_data (assign key (Entry.with_ttl seconds e)) c))
               = Some (Entry.with_ttl seconds e))
    by apply lookup_assign_same.
  split; [reflexivity|]. split.
  - rewrite getTtl_eq. unfold data_get. rewrite Hl. reflexivity.
  - split; [exact Hl|]. split; [|reflexivity].
    intros k Hk. apply lookup_assign_other, Hk.
Qed.

Lemma ttl_then_getTtl_witness :
  getTtl "b" (fst (ttl "b" 7 three_entries))
  = (fst (ttl "b" 7 three_entries), Normal 7)
  /\ lookup "b" (data (fst (ttl "b" 7 three_entries)))
     = Some (Entry.mk (VNumber 2) 8 7 0 0).
Proof.
  destruct (ttl_then_getTtl "b" 7 (Entry.mk (VNumber 2) 8 (-1) 0 0)
              three_entries) as (_ & Hg & Hl & _);
    [reflexivity | discriminate |].
  split; [exact Hg | exact Hl].
Defined.

(** ** set on a full store *)






Lemma new_entry_same (clock : nat -> Z) (value : val) (ttl : option Z)
  (c c' : RotatingCache.t) :
  options c' = options c -> clockReads c' = clockReads c ->
  new_entry clock value ttl c' = new_entry clock value ttl c.
Proof. intros Ho Hr. unfold new_entry. rewrite Ho, Hr. reflexivity. Qed.



(** X9: overwriting evicts nothing.  When the key is in the store and the
    store holds no more than [maxKeys] keys, [set] returns under every
    policy, the old entry is removed and the new one created last, all other
    entries stay, and [stats.keys] is unchanged. *)
Theorem overwrite_evicts_nothing (clock : nat -> Z) (key : string)
  (value : val) (ttl : option Z) (e0 : Entry.t) (c : RotatingCache.t) :
  lookup key (data c) = Some e0 ->
  key <> "__proto__" ->
  Stats.keys (stats c) <= Options.maxKeys (options c) ->
  snd (set clock key value ttl c) = Normal tt
  /\ data (fst (set clock key value ttl c))
     = (delete key (data c) ++ [(key, new_entry clock value ttl c)])%list
  /\ Stats.keys (stats (fst (set clock key value ttl c)))
     = Stats.keys (stats c).
Proof.
  intros Hown Hkey Hroom. apply String.eqb_neq in Hkey.
  rewrite set_eq, del_eq. unfold data_get. rewrite Hown. cbn [truthy fst].
  rewrite make_room_enough by (simpl; lia).
  unfold store. rewrite Hkey. cbn [fst snd].
  split; [reflexivity|]. split.
  - unfold stored, with_data, counted. cbn [data].
    rewrite assign_absent by apply lookup_delete_same. reflexivity.
  - simpl. lia.
Qed.

Lemma overwrite_evicts_nothing_witness :
  snd (set ticking "a" (VNumber 10) None full_of_a_b) = Normal tt
  /\ Object_keys (data (fst (set ticking "a" (VNumber 10) None full_of_a_b)))
     = ["b"; "a"].
Proof.
  destruct (overwrite_evicts_nothing ticking "a" (VNumber 10) None
              (Entry.mk (VNumber 1) 8 (-1) 0 1) full_of_a_b)
    as (Hr & Hd & _);
    [reflexivity | discriminate | vm_compute; discriminate |].
  split; [exact Hr|]. rewrite Hd. reflexivity.
Defined.



(** ** What every call keeps *)

Lemma forEach_invariant {A : Type} (P : RotatingCache.t -> Prop)
  (f : A -> M unit) (l : list A) :
  (forall x, In x l -> forall c, P c -> P (fst (f x c))) ->
  forall c, P c -> P (fst (forEach f l c)).
Proof.
  induction l as [|x l IH]; intros Hf c Hc; simpl; [exact Hc|].
  unfold bind. pose proof (Hf x (or_introl eq_refl) c Hc) as Hx.
  destruct (f x c) as [c' [[]|e|]]; simpl in *; try exact Hx.
  apply IH; [|exact Hx]. intros y Hy. apply Hf. now right.
Qed.

Lemma reduce_invariant {A B : Type} (P : RotatingCache.t -> Prop)
  (f : B -> A -> M B) (l : list A) :
  (forall x, In x l -> forall b c, P c -> P (fst (f b x c))) ->
  forall b c, P c -> P (fst (reduce f l b c)).
Proof.
  induction l as [|x l IH]; intros Hf b c Hc; simpl; [exact Hc|].
  unfold bind. pose proof (Hf x (or_introl eq_refl) b c Hc) as Hx.
  destruct (f b x c) as [c' [b'|e|]]; simpl in *; try exact Hx.
  apply IH; [|exact Hx]. intros y Hy. apply Hf. now right.
Qed.

Lemma delete_subset (key k : string) (e : Entry.t) (d : object) :
  In (k, e) (delete key d) -> In (k, e) d.
Proof. unfold delete. intros H. apply filter_In in H. tauto. Qed.

Lemma del_kept (o : Options.t) (key : string) (c : RotatingCache.t) :
  data_get (data c) key <> Inherited ->
  kept o c -> kept o (fst (del key c)).
Proof.
  intros Hkey (Ho & Hacc & Hest & Hcap).
  destruct (del_frame key c) as (Ho' & _).
  destruct (del_keys_le key c) as (_ & Hle).
  destruct (del_accounted key c Hkey Hacc) as [Ha _].
  split; [congruence|]. split; [exact Ha|]. split.
  - intros k e Hin. rewrite Ho'. apply Hest with k.
    rewrite del_eq in Hin. destruct (truthy _); simpl in Hin;
      [eapply delete_subset|]; exact Hin.
  - intros Hmax. specialize (Hcap Hmax). lia.
Qed.

Lemma make_room_kept (o : Options.t) (key : string) (c : RotatingCache.t) :
  kept o c -> lookup key (data c) = None ->
  kept o (fst (make_room c))
  /\ lookup key (data (fst (make_room c))) = None
  /\ (snd (make_room c) = Normal tt -> 0 <= Options.maxKeys o ->
      Stats.keys (stats (fst (make_room c))) + 1 <= Options.maxKeys o).
Proof.
  intros Hkept Hkey. pose proof Hkept as (Ho & Hacc & _ & Hcap).
  destruct (make_room_accounted key c Hacc Hkey) as [_ Hl].
  split; [|split; [exact Hl|]].
  - unfold make_room. destruct (_ >? _); [|exact Hkept].
    destruct (rotate c) as [c' [[k|]|e|]] eqn:Er; simpl; try exact Hkept.
    apply del_kept; [|exact Hkept].
    apply own_not_inherited. eapply rotate_own. exact Er.
  - unfold make_room.
    destruct (Stats.keys (stats c) + 1 >? Options.maxKeys (options c)) eqn:E.
    + destruct (rotate c) as [c' [[k|]|e|]] eqn:Er; simpl; try discriminate.
      intros _ Hmax. specialize (Hcap Hmax).
      apply rotate_own in Er. rewrite del_eq.
      replace (truthy (data_get (data c) k)) with true.
      * simpl. lia.
      * symmetry. unfold data_get.
        destruct (lookup k (data c)) eqn:El; [reflexivity|].
        apply lookup_None in El. contradiction.
    + simpl. intros _ _. rewrite Z.gtb_ltb in E. apply Z.ltb_ge in E.
      rewrite Ho in E. lia.
Qed.

Lemma store_kept (o : Options.t) (clock : nat -> Z) (key : string)
  (value : val) (ttl : option Z) (c : RotatingCache.t) :
  key <> "__proto__" ->
  kept o c -> lookup key (data c) = None ->
  (0 <= Options.maxKeys o ->
   Stats.keys (stats c) + 1 <= Options.maxKeys o) ->
  kept o (fst (store clock key value ttl c)).
Proof.
  intros Hkey (Ho & Hacc & Hest & _) Habs Hroom.
  split; [|split; [apply store_accounted; assumption|split]].
  - unfold store. destruct (String.eqb key "__proto__"); exact Ho.
  - unfold store. apply String.eqb_neq in Hkey. rewrite Hkey.
    intros k e Hin. simpl in Hin.
    rewrite assign_absent in Hin by exact Habs.
    apply in_app_or in Hin as [Hin | [[= <- <-] | []]].
    + apply Hest with k. exact Hin.
    + reflexivity.
  - unfold store. apply String.eqb_neq in Hkey. rewrite Hkey. exact Hroom.
Qed.

Lemma set_kept (o : Options.t) (clock : nat -> Z) (key : string)
  (value : val) (ttl : option Z) (c : RotatingCache.t) :
  inherited key = false ->
  kept o c -> kept o (fst (set clock key value ttl c)).
Proof.
  intros Hkey Hkept. rewrite set_eq.
  pose proof (del_kept o key c (ordinary_not_inherited key _ Hkey) Hkept)
    as Hk1.
  assert (Hl : lookup key (data (fst (del key c))) = None).
  { destruct Hkept as (_ & Hacc & _).
    apply (del_accounted key c (ordinary_not_inherited key _ Hkey) Hacc). }
  destruct (make_room_kept o key _ Hk1 Hl) as (Hk2 & Hl2 & Hroom).
  destruct (make_room (fst (del key c))) as [c' [[]|e|]]; simpl in *; auto.
  apply store_kept; auto.
  intros ->. discriminate.
Qed.

Lemma key_sizes_same_keys (d d' : object) :
  map fst d' = map fst d -> key_sizes d' = key_sizes d.
Proof.
  revert d'. induction d as [|[k e] d IH]; intros [|[k' e'] d'];
    try discriminate; simpl; [reflexivity|].
  intros [= -> H]. rewrite (IH d' H). reflexivity.
Qed.

(** A change of the entries that keeps the keys, the values and the sizes,
    with stats that count the same. *)
Lemma same_keys_sizes_kept (o : Options.t) (c c' : RotatingCache.t) :
  options c' = options c ->
  map fst (data c') = map fst (data c) ->
  (forall k e', In (k, e') (data c') ->
     exists e, In (k, e) (data c) /\ Entry.size e' = Entry.size e
               /\ Entry.value e' = Entry.value e) ->
  value_sizes (data c') = value_sizes (data c) ->
  Stats.keys (stats c') = Stats.keys (stats c) ->
  Stats.keySize (stats c') = Stats.keySize (stats c) ->
  Stats.valueSize (stats c') = Stats.valueSize (stats c) ->
  kept o c -> kept o c'.
Proof.
  intros Ho Hk He Hv Hs1 Hs2 Hs3 (Ho' & (Hnd & Hn & Hks & Hvs) & Hest & Hcap).
  split; [congruence|]. split; [|split].
  - unfold accounted.
    split; [rewrite Hk; exact Hnd|].
    split; [|split].
    + rewrite Hs1, Hn. f_equal.
      rewrite <- (length_map fst (data c')), Hk. symmetry. apply length_map.
    + rewrite Hs2, Hks. symmetry. apply key_sizes_same_keys, Hk.
    + rewrite Hs3, Hvs, Hv. reflexivity.
  - intros k e' Hin. destruct (He k e' Hin) as (e & Hin' & Hsz & Hval).
    rewrite Hsz, Hval, Ho. apply Hest with k. exact Hin'.
  - rewrite Hs1. exact Hcap.
Qed.

Lemma lookup_In (key : string) (e : Entry.t) (d : object) :
  lookup key d = Some e -> In (key, e) d.
Proof.
  induction d as [|[k e'] d IH]; simpl; [discriminate|].
  destruct (String.eqb key k) eqn:E.
  - apply String.eqb_eq in E. intros [= ->]. subst. now left.
  - intros H. right. auto.
Qed.

Lemma assign_In (key k : string) (e e' : Entry.t) (d : object) :
  In (k, e') (assign key e d) -> In (k, e') d \/ (k = key /\ e' = e).
Proof.
  induction d as [|[k0 e0] d IH]; simpl.
  - intros [[= <- <-] | []]. auto.
  - destruct (String.eqb key k0) eqn:E; simpl.
    + apply String.eqb_eq in E. subst k0.
      intros [[= <- <-] | H]; auto.
    + intros [H | H]; [auto|]. destruct (IH H); auto.
Qed.

(** Replacing the entry of [key] by one of the same value and size. *)
Lemma touch_kept (o : Options.t) (key : string) (e e2 : Entry.t)
  (c c' : RotatingCache.t) :
  lookup key (data c) = Some e ->
  Entry.size e2 = Entry.size e -> Entry.value e2 = Entry.value e ->
  data c' = assign key e2 (data c) ->
  options c' = options c ->
  Stats.keys (stats c') = Stats.keys (stats c) ->
  Stats.keySize (stats c') = Stats.keySize (stats c) ->
  Stats.valueSize (stats c') = Stats.valueSize (stats c) ->
  kept o c -> kept o c'.
Proof.
  intros He Hsz Hval Hd Ho Hs1 Hs2 Hs3.
  destruct (assign_present key e2 e (data c) He) as (Hk & _ & Hv).
  apply same_keys_sizes_kept; try assumption; rewrite Hd; auto.
  intros k e' Hin. apply assign_In in Hin as [Hin | [-> ->]]; [eauto|].
  exists e. split; [apply lookup_In, He | auto].
Qed.

Lemma same_data_kept (o : Options.t) (c c' : RotatingCache.t) :
  data c' = data c ->
  options c' = options c ->
  Stats.keys (stats c') = Stats.keys (stats c) ->
  Stats.keySize (stats c') = Stats.keySize (stats c) ->
  Stats.valueSize (stats c') = Stats.valueSize (stats c) ->
  kept o c -> kept o c'.
Proof.
  intros Hd Ho Hs1 Hs2 Hs3.
  apply same_keys_sizes_kept; try assumption; rewrite Hd; auto.
  intros k e' Hin. eauto.
Qed.

Lemma get_kept (o : Options.t) (clock : nat -> Z) (key : string)
  (c : RotatingCache.t) :
  kept o c -> kept o (fst (get clock key c)).
Proof.
  rewrite get_eq. unfold read, data_get.
  destruct (lookup key (data c)) as [e|] eqn:E.
  - apply (touch_kept o key e
             (Entry.with_lastAccess (clock (clockReads c)) e));
      auto; reflexivity.
  - destruct (inherited key); apply same_data_kept; reflexivity.
Qed.

Lemma ttl_eq (key : string) (seconds : Z) (c : RotatingCache.t) :
  ttl key seconds c =
  match data_get (data c) key with
  | Absent => (c, Throw KeyNotFound)
  | Own e =>
      if seconds =? 0 then (deleted key c, Normal tt)
      else (with_data (assign key (Entry.with_ttl seconds e)) c, Normal tt)
  | Inherited =>
      if seconds =? 0 then (deleted key c, Normal tt)
      else if String.eqb key "__proto__" then (c, Unmodelled)
      else (c, Normal tt)
  end.
Proof.
  unfold ttl, _makeKey. unfold bind at 1. unfold gets at 1.
  destruct (data_get (data c) key) as [e| |] eqn:E; cbn [truthy negb];
    [| |reflexivity];
    (destruct (seconds =? 0);
     [unfold bind, ret; rewrite del_eq, E; reflexivity|]);
    unfold write_field, bind, gets, modify, unmodelled, ret; rewrite E;
    [reflexivity|].
  destruct (String.eqb key "__proto__"); reflexivity.
Qed.

Lemma ttl_kept (o : Options.t) (key : string) (seconds : Z)
  (c : RotatingCache.t) :
  inherited key = false ->
  kept o c -> kept o (fst (ttl key seconds c)).
Proof.
  intros Hkey Hkept.
  pose proof (del_kept o key c (ordinary_not_inherited key _ Hkey) Hkept)
    as Hdel.
  rewrite del_eq in Hdel. rewrite ttl_eq. unfold data_get in *.
  destruct (lookup key (data c)) as [e|] eqn:E.
  - destruct (seconds =? 0); [exact Hdel|].
    apply (touch_kept o key e (Entry.with_ttl seconds e) c); auto.
  - rewrite Hkey. exact Hkept.
Qed.

Lemma sweep_key_kept (o : Options.t) (now : Z) (key : string)
  (c : RotatingCache.t) :
  kept o c -> kept o (fst (sweep_key now key c)).
Proof.
  intros Hkept. unfold sweep_key, bind, gets.
  destruct (data_get (data c) key) as [e| |] eqn:E; simpl; try exact Hkept.
  destruct (_ && _); simpl; [|exact Hkept].
  assert (H : kept o (fst (del key c)))
    by (apply del_kept; [rewrite E; discriminate | exact Hkept]).
  destruct (del key c) as [c' [n|e'|]]; exact H.
Qed.

Lemma _expire_kept (o : Options.t) (clock : nat -> Z)
  (c : RotatingCache.t) :
  kept o c -> kept o (fst (_expire clock c)).
Proof.
  intros Hkept. rewrite _expire_eq.
  apply forEach_invariant.
  - intros key _ c'. apply sweep_key_kept.
  - revert Hkept. apply same_data_kept; reflexivity.
Qed.

Lemma mset_kept (o : Options.t) (clock : nat -> Z) (batch : list item)
  (c : RotatingCache.t) :
  (forall key, In key (map item_key batch) -> inherited key = false) ->
  kept o c -> kept o (fst (mset clock batch c)).
Proof.
  intros Hord Hkept. unfold mset, bind, gets, throw.
  destruct (_ && _); [exact Hkept|].
  apply forEach_invariant; [|exact Hkept].
  intros i Hi c'. apply set_kept. apply Hord, in_map, Hi.
Qed.

Lemma mdel_kept (o : Options.t) (ks : list string) (c : RotatingCache.t) :
  (forall key, In key ks -> inherited key = false) ->
  kept o c -> kept o (fst (mdel ks c)).
Proof.
  intros Hord Hkept. unfold mdel. apply reduce_invariant; [|exact Hkept].
  intros k Hk s c' Hc'.
  assert (H : kept o (fst (del k c')))
    by (apply del_kept; [apply ordinary_not_inherited, Hord, Hk | exact Hc']).
  unfold bind, ret. destruct (del k c') as [c'' [n|e|]]; exact H.
Qed.

Lemma mget_kept (o : Options.t) (clock : nat -> Z) (ks : list string)
  (c : RotatingCache.t) :
  kept o c -> kept o (fst (mget clock ks c)).
Proof.
  intros Hkept. unfold mget. apply reduce_invariant; [|exact Hkept].
  intros k _ r c' Hc'.
  pose proof (get_kept o clock k c' Hc') as H.
  unfold bind, ret, unmodelled.
  destruct (get clock k c') as [c'' [v|e|]]; try exact H.
  destruct (String.eqb k "__proto__"); exact H.
Qed.

Lemma flushAll_kept (c : RotatingCache.t) :
  kept (options c) (fst (flushAll c)).
Proof.
  split; [reflexivity|]. split; [|split].
  - repeat split. constructor.
  - intros k e [].
  - simpl. auto.
Qed.

Lemma invoke_kept (o : Options.t) (clock : nat -> Z) (c : RotatingCache.t)
  (x : call) :
  ordinary x -> kept o c -> kept o (invoke clock c x).
Proof.
  intros Hord Hkept. destruct x; cbn [invoke].
  - apply set_kept; [apply Hord; now left | exact Hkept].
  - apply mset_kept; assumption.
  - apply get_kept, Hkept.
  - apply mget_kept, Hkept.
  - apply del_kept; [|exact Hkept].
    apply ordinary_not_inherited, Hord. now left.
  - apply mdel_kept; assumption.
  - apply ttl_kept; [apply Hord; now left | exact Hkept].
  - rewrite getTtl_eq. destruct (data_get (data c) key); exact Hkept.
  - exact Hkept.
  - destruct Hkept as [<- _]. apply flushAll_kept.
  - revert Hkept. apply same_data_kept; reflexivity.
  - revert Hkept. apply same_data_kept; reflexivity.
  - unfold timer_fires, bind, gets, modify.
    destruct (checkTimeout c); [|exact Hkept].
    apply _expire_kept. revert Hkept. apply same_data_kept; reflexivity.
Qed.

Lemma sequence_kept (o : Options.t) (clock : nat -> Z) (calls : list call) :
  Forall ordinary calls ->
  forall c, kept o c -> kept o (fold_left (invoke clock) calls c).
Proof.
  induction 1 as [|x calls Hx _ IH]; intros c Hkept; simpl; [exact Hkept|].
  apply IH, invoke_kept; assumption.
Qed.

Lemma constructor_kept (o : Options.t) (c : RotatingCache.t) :
  constructor o = Normal c -> kept o c.
Proof.
  unfold constructor. destruct (negb _); [discriminate|].
  intros [= <-]. split; [reflexivity|]. split; [|split].
  - repeat split. constructor.
  - intros k e [].
  - simpl. auto.
Qed.

Lemma estimated_sizes (c : RotatingCache.t) :
  estimated c -> value_sizes (data c) = estimates (options c) (data c).
Proof.
  unfold estimated. generalize (options c) as o, (data c) as d.
  induction d as [|[k e] d IH]; intros H; simpl; [reflexivity|].
  rewrite (H k e) by (now left). rewrite IH; [reflexivity|].
  intros k' e' Hin. apply (H k'). now right.
Qed.


Lemma some_calls_ordinary : Forall ordinary some_calls.
Proof.
  repeat constructor; intros key Hin; simpl in Hin;
    repeat (destruct Hin as [<- | Hin]; [reflexivity|]); destruct Hin.
Qed.

(** X11: after every sequence of calls of any methods ([set], [mset],
    [get], [mget], [del], [mdel], [ttl], [getTtl], [hasKey], [flushAll],
    [flushStats], [close]) and firings of the sweep, on keys that
    [Object.prototype] does not have, the stats are the aggregates over the
    live entries, whether the calls returned or threw. *)
Theorem every_call_keeps_the_accounting (clock : nat -> Z) (o : Options.t)
  (c : RotatingCache.t) (calls : list call) :
  constructor o = Normal c ->
  Forall ordinary calls ->
  accounted (fold_left (invoke clock) calls c).
Proof.
  intros Hc Hord.
  apply (sequence_kept o clock calls Hord c (constructor_kept o c Hc)).
Qed.

Lemma every_call_keeps_the_accounting_witness :
  accounted (fold_left (invoke ticking) some_calls (two_keys "inactive")).
Proof.
  apply (every_call_keeps_the_accounting ticking
           (options (two_keys "inactive"))).
  - reflexivity.
  - exact some_calls_ordinary.
Defined.

(** X12: after every such sequence [stats.valueSize] is the sum, over the
    stored entries, of what [_getValueSize] gives for their values under the
    options of the cache: a size is computed when the entry is created and
    no call changes it. *)
Theorem valueSize_is_the_estimate (clock : nat -> Z) (o : Options.t)
  (c : RotatingCache.t) (calls : list call) :
  constructor o = Normal c ->
  Forall ordinary calls ->
  Stats.valueSize (stats (fold_left (invoke clock) calls c))
  = Number.Int (estimates o (data (fold_left (invoke clock) calls c))).
Proof.
  intros Hc Hord.
  destruct (sequence_kept o clock calls Hord c (constructor_kept o c Hc))
    as (Ho & (_ & _ & _ & Hv) & Hest & _).
  rewrite Hv, (estimated_sizes _ Hest), Ho. reflexivity.
Qed.

Lemma valueSize_is_the_estimate_witness :
  Stats.valueSize
    (stats (fold_left (invoke ticking) some_calls (two_keys "inactive")))
  = Number.Int 88.
Proof.
  rewrite (valueSize_is_the_estimate ticking (options (two_keys "inactive")));
    [reflexivity | reflexivity | exact some_calls_ordinary].
Defined.

(** X13: with a [maxKeys] that is not negative the store never holds more
    than [maxKeys] entries, after every such sequence and under every
    policy. *)
Theorem never_over_capacity (clock : nat -> Z) (o : Options.t)
  (c : RotatingCache.t) (calls : list call) :
  constructor o = Normal c ->
  0 <= Options.maxKeys o ->
  Forall ordinary calls ->
  Z.of_nat (List.length (data (fold_left (invoke clock) calls c)))
  <= Options.maxKeys o.
Proof.
  intros Hc Hmax Hord.
  destruct (sequence_kept o clock calls Hord c (constructor_kept o c Hc))
    as (_ & (_ & Hn & _) & _ & Hcap).
  rewrite <- Hn. apply Hcap, Hmax.
Qed.

Lemma never_over_capacity_witness :
  Z.of_nat (List.length
              (data (fold_left (invoke ticking) some_calls
                       (two_keys "inactive")))) <= 2.
Proof.
  apply (never_over_capacity ticking (options (two_keys "inactive")));
    [reflexivity | simpl; lia | exact some_calls_ordinary].
Defined.

(** X14: [flushAll] brings the stats back in step, whatever they were:
    after it, every sequence of calls on keys that [Object.prototype] does
    not have keeps the accounting invariant, and the options are those of
    before. *)
Theorem flushAll_restores_the_accounting (clock : nat -> Z)
  (c : RotatingCache.t) (calls : list call) :
  Forall ordinary calls ->
  accounted (fold_left (invoke clock) calls (fst (flushAll c)))
  /\ options (fold_left (invoke clock) calls (fst (flushAll c))) = options c.
Proof.
  intros Hord.
  destruct (sequence_kept (options c) clock calls Hord _ (flushAll_kept c))
    as (Ho & Hacc & _).
  split; assumption.
Qed.

Lemma flushAll_restores_the_accounting_witness :
  Stats.valueSize (stats miscounted) = Number.NaN
  /\ accounted (fold_left (invoke ticking) some_calls (fst (flushAll miscounted))).
Proof.
  split; [reflexivity|].
  apply (flushAll_restores_the_accounting ticking miscounted some_calls).
  exact some_calls_ordinary.
Defined.

(** ** The timer, and close *)

Lemma store_frame (clock : nat -> Z) (key : string) (value : val)
  (ttl : option Z) (c : RotatingCache.t) :
  options (fst (store clock key value ttl c)) = options c
  /\ checkTimeout (fst (store clock key value ttl c)) = checkTimeout c.
Proof. unfold store. destruct (String.eqb key "__proto__"); simpl; auto. Qed.

Lemma set_frame (clock : nat -> Z) (key : string) (value : val)
  (ttl : option Z) (c : RotatingCache.t) :
  options (fst (set clock key value ttl c)) = options c
  /\ checkTimeout (fst (set clock key value ttl c)) = checkTimeout c.
Proof.
  rewrite set_eq.
  destruct (make_room_options (fst (del key c))) as (Ho & _ & Ht).
  destruct (del_frame key c) as (Ho' & _).
  pose proof (del_checkTimeout key c) as Ht'.
  destruct (make_room (fst (del key c))) as [c' [[]|e|]]; simpl in *;
    try (split; congruence).
  destruct (store_frame clock key value ttl c') as [Ho2 Ht2].
  split; congruence.
Qed.

Lemma get_checkTimeout (clock : nat -> Z) (key : string)
  (c : RotatingCache.t) :
  checkTimeout (fst (get clock key c)) = checkTimeout c.
Proof.
  rewrite get_eq. unfold read. destruct (data_get (data c) key); reflexivity.
Qed.

Lemma ttl_checkTimeout (key : string) (seconds : Z) (c : RotatingCache.t) :
  checkTimeout (fst (ttl key seconds c)) = checkTimeout c.
Proof.
  rewrite ttl_eq.
  destruct (data_get (data c) key); [| |reflexivity];
    destruct (seconds =? 0); try reflexivity.
  destruct (String.eqb key "__proto__"); reflexivity.
Qed.

(** No call starts the timer: after a call the timer is pending only if it
    was before, and not after [close()] or after it has fired. *)
Lemma invoke_checkTimeout (clock : nat -> Z) (c : RotatingCache.t)
  (x : call) :
  checkTimeout (invoke clock c x)
  = match x with
    | Call_close | Timer => None
    | _ => checkTimeout c
    end.
Proof.
  destruct x; cbn [invoke].
  - apply set_frame.
  - unfold mset, bind, gets, throw. destruct (_ && _); [reflexivity|].
    apply (forEach_invariant (fun c' => checkTimeout c' = checkTimeout c));
      [|reflexivity].
    intros i _ c' Hc'. rewrite <- Hc'. apply set_frame.
  - apply get_checkTimeout.
  - unfold mget.
    apply (reduce_invariant (fun c' => checkTimeout c' = checkTimeout c));
      [|reflexivity].
    intros k _ r c' Hc'. pose proof (get_checkTimeout clock k c') as H.
    unfold bind, ret, unmodelled.
    destruct (get clock k c') as [c'' [v|e|]]; simpl in *; try congruence.
    destruct (String.eqb k "__proto__"); simpl; congruence.
  - apply del_checkTimeout.
  - unfold mdel.
    apply (reduce_invariant (fun c' => checkTimeout c' = checkTimeout c));
      [|reflexivity].
    intros k _ s c' Hc'. pose proof (del_checkTimeout k c') as H.
    unfold bind, ret.
    destruct (del k c') as [c'' [n|e|]]; simpl in *; congruence.
  - apply ttl_checkTimeout.
  - rewrite getTtl_eq. destruct (data_get (data c) key); reflexivity.
  - reflexivity.
  - reflexivity.
  - reflexivity.
  - reflexivity.
  - unfold timer_fires, bind, gets, modify.
    destruct (checkTimeout c) eqn:E; [|exact E].
    cbn [fst snd]. rewrite _expire_checkTimeout. reflexivity.
Qed.

(** X15: once closed, always closed.  After [close()] and any calls that
    follow (none on the key [__proto__]) no timer is pending, and a firing
    of the timer does nothing: no method schedules the sweep again. *)
Theorem closed_stays_closed (clock : nat -> Z) (c : RotatingCache.t)
  (calls : list call) :
  Forall modelled calls ->
  checkTimeout (fold_left (invoke clock) calls (fst (close c))) = None
  /\ timer_fires clock (fold_left (invoke clock) calls (fst (close c)))
     = (fold_left (invoke clock) calls (fst (close c)), Normal tt).
Proof.
  intros _.
  assert (H : forall c0, checkTimeout c0 = None ->
                checkTimeout (fold_left (invoke clock) calls c0) = None).
  { induction calls as [|x calls IH]; intros c0 Hc0; simpl; [exact Hc0|].
    apply IH. rewrite invoke_checkTimeout. destruct x; auto. }
  specialize (H (fst (close c)) eq_refl).
  split; [exact H|].
  unfold timer_fires, bind, gets. rewrite H. reflexivity.
Qed.

Lemma closed_stays_closed_witness :
  timer_fires (fun _ => 5000)
    (fold_left (invoke (fun _ => 5000))
       [Call_get "a"; Call_set "d" VNull (Some 1); Timer]
       (fst (close three_entries)))
  = (fold_left (invoke (fun _ => 5000))
       [Call_get "a"; Call_set "d" VNull (Some 1); Timer]
       (fst (close three_entries)), Normal tt)
  /\ Object_keys
       (data (fold_left (invoke (fun _ => 5000))
                [Call_get "a"; Call_set "d" VNull (Some 1); Timer]
                (fst (close three_entries))))
     = ["a"; "b"; "c"; "d"].
Proof.
  split; [|reflexivity].
  apply (closed_stays_closed (fun _ => 5000) three_entries).
  repeat apply Forall_cons; try apply Forall_nil;
    intros H; simpl in H; intuition discriminate.
Defined.

(** ** set, then the sweep *)

Lemma lookup_filter (f : Entry.t -> bool) (key : string) (d : object) :
  NoDup (map fst d) ->
  lookup key (filter (fun p => f (snd p)) d)
  = match lookup key d with
    | Some e => if f e then Some e else None
    | None => None
    end.
Proof.
  induction d as [|[k e] d IH]; simpl; [reflexivity|].
  intros Hnd. inversion Hnd as [|? ? Hk Hnd']; subst.
  destruct (String.eqb key k) eqn:E.
  - apply String.eqb_eq in E. subst k. destruct (f e); simpl.
    + rewrite String.eqb_refl. reflexivity.
    + rewrite (IH Hnd').
      replace (lookup key d) with (@None Entry.t); [reflexivity|].
      symmetry. apply lookup_None, Hk.
  - destruct (f e); simpl; [rewrite E|]; apply IH, Hnd'.
Qed.

Lemma _expire_data (clock : nat -> Z) (c : RotatingCache.t) :
  NoDup (map fst (data c)) ->
  data (fst (_expire clock c))
  = filter (fun p => negb (expired (options c) (clock (clockReads c)) (snd p)))
           (data c).
Proof.
  intros Hnd. rewrite _expire_eq.
  match goal with |- context [forEach _ _ ?c0] =>
    destruct (sweep_loop (clock (clockReads c)) (Object_keys (data c)) c0)
      as [_ Hd]
  end.
  - eapply Permutation_NoDup; [apply Permutation_sym, Object_keys_perm|].
    exact Hnd.
  - intros k Hk. simpl.
    eapply Permutation_in; [apply Object_keys_perm | exact Hk].
  - exact Hnd.
  - rewrite Hd. simpl. apply filter_ext_in. intros [k e] Hp. simpl.
    replace (existsb (String.eqb k) (Object_keys (data c))) with true;
      [reflexivity|].
    symmetry. apply existsb_exists. exists k. split.
    + eapply Permutation_in; [apply Permutation_sym, Object_keys_perm|].
      apply (in_map fst) in Hp. exact Hp.
    + apply String.eqb_refl.
Qed.

Lemma assign_NoDup (key : string) (e : Entry.t) (d : object) :
  NoDup (map fst d) -> NoDup (map fst (assign key e d)).
Proof.
  intros Hnd. destruct (lookup key d) as [e0|] eqn:E.
  - destruct (assign_present key e e0 d E) as [-> _]. exact Hnd.
  - rewrite assign_absent by exact E. rewrite map_app.
    apply NoDup_app; [exact Hnd | repeat constructor; simpl; tauto |].
    intros k Hin [<- | []]. apply lookup_None in E. contradiction.
Qed.

Lemma make_room_NoDup (c : RotatingCache.t) :
  NoDup (map fst (data c)) -> NoDup (map fst (data (fst (make_room c)))).
Proof.
  intros Hnd. unfold make_room. destruct (_ >? _); [|exact Hnd].
  destruct (rotate c) as [c' [[k|]|e|]]; simpl; try exact Hnd.
  rewrite del_eq. destruct (truthy _); simpl; [|exact Hnd].
  apply delete_NoDup, Hnd.
Qed.

(** X16: the sweep that follows a [set] removes the new entry exactly when
    its TTL is greater than -1 and [added + ttl * ttlScale] is less than the
    time the sweep reads; with a TTL of -1 the entry stays whatever the
    time, with a TTL of 0 it goes as soon as the clock has advanced. *)
Theorem set_then_sweep (clock : nat -> Z) (key : string) (value : val)
  (ttl : option Z) (c c1 : RotatingCache.t) :
  NoDup (map fst (data c)) ->
  set clock key value ttl c = (c1, Normal tt) ->
  lookup key (data (fst (_expire clock c1)))
  = if (stored_ttl ttl c >? -1)
       && (clock (clockReads c)
           + stored_ttl ttl c * Options.ttlScale (options c)
           <? clock (S (S (clockReads c))))
    then None
    else Some (new_entry clock value ttl c).
Proof.
  intros Hnd Hset.
  apply set_normal in Hset as (_ & c' & Hroom & ->).
  assert (Hc' : c' = fst (make_room (fst (del key c))))
    by (rewrite Hroom; reflexivity).
  destruct (make_room_options (fst (del key c))) as (Ho1 & Hr1 & _).
  destruct (del_frame key c) as (Ho2 & Hr2 & _).
  assert (Ho : options c' = options c) by (rewrite Hc'; congruence).
  assert (Hr : clockReads c' = clockReads c) by (rewrite Hc'; congruence).
  assert (Hnd' : NoDup (map fst (data c'))).
  { rewrite Hc'. apply make_room_NoDup. rewrite del_eq.
    destruct (truthy _); simpl; [apply delete_NoDup|]; exact Hnd. }
  rewrite _expire_data by (apply assign_NoDup, Hnd').
  rewrite (lookup_filter (fun e => negb (expired _ _ e)))
    by (apply assign_NoDup, Hnd').
  assert (Hl : lookup key (data (stored clock key value ttl c'))
               = Some (new_entry clock value ttl c'))
    by apply lookup_assign_same.
  rewrite Hl.
  rewrite (new_entry_same clock value ttl c c' Ho Hr).
  unfold expired, expires_at, _getTTLDate, stored_ttl, new_entry.
  cbn [Entry.ttl Entry.added options clockReads stored with_data counted].
  rewrite Ho, Hr. destruct (_ && _); reflexivity.
Qed.

Lemma set_then_sweep_witness :
  lookup "k"
    (data (fst (_expire fifty_seconds_apart
                  (fst (set fifty_seconds_apart "k" (VNumber 1) (Some 0)
                          fresh)))))
  = None
  /\ lookup "k"
       (data (fst (_expire fifty_seconds_apart
                     (fst (set fifty_seconds_apart "k" (VNumber 1) None
                             fresh)))))
     = Some (Entry.mk (VNumber 1) 8 (-1) 0 0).
Proof.
  split.
  - rewrite (set_then_sweep fifty_seconds_apart "k" (VNumber 1) (Some 0)
               fresh); [reflexivity | constructor | reflexivity].
  - rewrite (set_then_sweep fifty_seconds_apart "k" (VNumber 1) None fresh);
      [reflexivity | constructor | reflexivity].
Defined.

(** ** mset with room *)

Lemma set_with_room_eq (clock : nat -> Z) (key : string) (value : val)
  (ttl : option Z) (c : RotatingCache.t) :
  Stats.keys (stats c) + 1 <= Options.maxKeys (options c) ->
  key <> "__proto__" ->
  set clock key value ttl c
  = (stored clock key value ttl (fst (del key c)), Normal tt).
Proof.
  intros Hroom Hkey. apply String.eqb_neq in Hkey. rewrite set_eq.
  destruct (del_keys_le key c) as [Ho Hk].
  rewrite make_room_enough by (rewrite Ho; lia).
  unfold store. rewrite Hkey. reflexivity.
Qed.

Lemma stored_lookup (clock : nat -> Z) (key k : string) (value : val)
  (ttl : option Z) (c : RotatingCache.t) :
  lookup k (data (stored clock key value ttl (fst (del key c))))
  = if String.eqb k key
    then Some (new_entry clock value ttl (fst (del key c)))
    else lookup k (data c).
Proof.
  unfold stored, with_data, counted. cbn [data].
  destruct (String.eqb k key) eqn:E.
  - apply String.eqb_eq in E. subst k. apply lookup_assign_same.
  - apply String.eqb_neq in E. rewrite lookup_assign_other by exact E.
    rewrite del_eq. destruct (truthy _); simpl; [|reflexivity].
    apply lookup_delete_other, E.
Qed.

Lemma mset_loop (clock : nat -> Z) (batch : list item) :
  NoDup (map item_key batch) ->
  ~ In "__proto__" (map item_key batch) ->
  forall c : RotatingCache.t,
    Stats.keys (stats c) + Z.of_nat (List.length batch)
      <= Options.maxKeys (options c) ->
    snd (forEach (fun i => set clock (item_key i) (item_value i) (item_ttl i))
           batch c) = Normal tt
    /\ (forall i, In i batch ->
          exists e,
            lookup (item_key i)
              (data (fst (forEach (fun i => set clock (item_key i)
                                              (item_value i) (item_ttl i))
                            batch c))) = Some e
            /\ Entry.value e = item_value i
            /\ Entry.ttl e = stored_ttl (item_ttl i) c)
    /\ (forall k, ~ In k (map item_key batch) ->
          lookup k
            (data (fst (forEach (fun i => set clock (item_key i)
                                            (item_value i) (item_ttl i))
                          batch c))) = lookup k (data c)).
Proof.
  induction batch as [|i batch IH]; intros Hnd Hproto c Hroom.
  - simpl. split; [reflexivity|]. split; [intros i []|reflexivity].
  - cbn [map] in Hnd, Hproto. inversion Hnd as [|? ? Hi Hnd']; subst.
    cbn [List.length] in Hroom. rewrite Nat2Z.inj_succ in Hroom.
    assert (Hset : set clock (item_key i) (item_value i) (item_ttl i) c
                   = (stored clock (item_key i) (item_value i) (item_ttl i)
                        (fst (del (item_key i) c)), Normal tt)).
    { apply set_with_room_eq; [lia|]. intros H. apply Hproto. now left. }
    cbn [forEach]. rewrite (bind_normal _ _ _ _ _ Hset).
    set (c1 := stored clock (item_key i) (item_value i) (item_ttl i)
                 (fst (del (item_key i) c))) in *.
    destruct (del_keys_le (item_key i) c) as [Ho Hk].
    assert (Ho1 : options c1 = options c) by exact Ho.
    destruct (IH Hnd' (fun H => Hproto (or_intror H)) c1)
      as (Hr & Hin & Hout).
    { rewrite Ho1. unfold c1, stored, with_data, counted.
      cbn [stats Stats.keys]. lia. }
    split; [exact Hr|]. split.
    + intros j [<- | Hj].
      * exists (new_entry clock (item_value i) (item_ttl i)
                  (fst (del (item_key i) c))).
        rewrite Hout by exact Hi. unfold c1.
        rewrite stored_lookup, String.eqb_refl.
        split; [reflexivity|]. split; [reflexivity|].
        unfold new_entry, stored_ttl. simpl. rewrite Ho. reflexivity.
      * destruct (Hin j Hj) as (e & Hl & Hv & Ht).
        exists e. split; [exact Hl|]. split; [exact Hv|].
        rewrite Ht. unfold stored_ttl. rewrite Ho1. reflexivity.
    + intros k Hk'. rewrite Hout by (intros H; apply Hk'; now right).
      unfold c1. rewrite stored_lookup.
      replace (String.eqb k (item_key i)) with false; [reflexivity|].
      symmetry. apply String.eqb_neq. intros ->. apply Hk'. now left.
Qed.

(** X17: when the batch fits ([stats.keys] plus its length is at most
    [maxKeys]), has no key twice and no key [__proto__], [mset] returns
    under every policy, every element is in the store afterwards with its
    value and its TTL (or [stdTTL]), and the entries of all other keys are
    as they were: nothing is evicted. *)
Theorem mset_with_room_stores_all (clock : nat -> Z) (batch : list item)
  (c : RotatingCache.t) :
  Stats.keys (stats c) + Z.of_nat (List.length batch)
    <= Options.maxKeys (options c) ->
  NoDup (map item_key batch) ->
  ~ In "__proto__" (map item_key batch) ->
  snd (mset clock batch c) = Normal tt
  /\ (forall i, In i batch ->
        exists e,
          lookup (item_key i) (data (fst (mset clock batch c))) = Some e
          /\ Entry.value e = item_value i
          /\ Entry.ttl e = stored_ttl (item_ttl i) c)
  /\ (forall k, ~ In k (map item_key batch) ->
        lookup k (data (fst (mset clock batch c))) = lookup k (data c)).
Proof.
  intros Hroom Hnd Hproto.
  assert (Heq : mset clock batch c
                = forEach (fun i => set clock (item_key i) (item_value i)
                                      (item_ttl i)) batch c).
  { unfold mset, bind, gets.
    replace (_ >? _) with false
      by (symmetry; rewrite Z.gtb_ltb; apply Z.ltb_ge; lia).
    reflexivity. }
  rewrite Heq. apply mset_loop; assumption.
Qed.

Lemma mset_with_room_stores_all_witness :
  snd (mset ticking
         [mk_item "x" (VNumber 7) (Some 9); mk_item "b" (VNumber 8) None]
         three_entries) = Normal tt
  /\ Object_keys
       (data (fst (mset ticking
                     [mk_item "x" (VNumber 7) (Some 9);
                      mk_item "b" (VNumber 8) None]
                     three_entries)))
     = ["a"; "c"; "x"; "b"].
Proof.
  split; [|reflexivity].
  apply (mset_with_room_stores_all ticking
           [mk_item "x" (VNumber 7) (Some 9); mk_item "b" (VNumber 8) None]
           three_entries).
  - vm_compute. discriminate.
  - repeat constructor; simpl; intuition discriminate.
  - simpl. intuition discriminate.
Defined.

(** ** hasKey *)

Lemma hasKey_eq (key : string) (c : RotatingCache.t) :
  hasKey key c
  = (c, Normal (match data_get (data c) key with
                | Absent => false
                | _ => true
                end)).
Proof. reflexivity. Qed.

(** X18: for a key that [Object.prototype] does not have, [hasKey] is
    true exactly when the key is in the store: true after a [set] of the
    key that returns, false after [del] of the key. *)
Theorem hasKey_follows_set_and_del (clock : nat -> Z) (key : string)
  (c : RotatingCache.t) :
  inherited key = false ->
  snd (hasKey key (fst (del key c))) = Normal false
  /\ (forall value ttl c1,
        set clock key value ttl c = (c1, Normal tt) ->
        snd (hasKey key c1) = Normal true)
  /\ (snd (hasKey key c) = Normal true <-> lookup key (data c) <> None).
Proof.
  intros Hkey. rewrite !hasKey_eq. cbn [snd]. split; [|split].
  - unfold data_get. rewrite Hkey.
    replace (lookup key (data (fst (del key c)))) with (@None Entry.t);
      [reflexivity|].
    symmetry. rewrite del_eq. destruct (truthy (data_get (data c) key)) eqn:E.
    + apply lookup_delete_same.
    + simpl. unfold data_get in E.
      destruct (lookup key (data c)); [discriminate | reflexivity].
  - intros value ttl c1 Hset. apply set_normal in Hset as (_ & c' & _ & ->).
    rewrite hasKey_eq. unfold data_get.
    assert (H : lookup key (data (stored clock key value ttl c'))
                = Some (new_entry clock value ttl c'))
      by apply lookup_assign_same.
    rewrite H. reflexivity.
  - unfold data_get. rewrite Hkey.
    destruct (lookup key (data c)); split; congruence.
Qed.

Lemma hasKey_follows_set_and_del_witness :
  snd (hasKey "b" three_entries) = Normal true
  /\ snd (hasKey "b" (fst (del "b" three_entries))) = Normal false.
Proof.
  destruct (hasKey_follows_set_and_del ticking "b" three_entries eq_refl)
    as (Hdel & _ & Hhas).
  split; [apply Hhas; discriminate | exact Hdel].
Defined.

(** ** Names that Object.prototype has *)

(** X19: a name that [Object.prototype] has and that was never stored
    cannot be removed: [hasKey] is true for it, every [del] of it returns 1
    and takes one off [stats.keys] without changing the entries, so [mdel]
    of [n] times the name returns [n], and [hasKey] is true afterwards. *)
Theorem inherited_name_is_never_gone (key : string) (n : nat)
  (c : RotatingCache.t) :
  inherited key = true ->
  lookup key (data c) = None ->
  snd (hasKey key c) = Normal true
  /\ snd (mdel (repeat key n) c) = Normal (Z.of_nat n)
  /\ data (fst (mdel (repeat key n) c)) = data c
  /\ Stats.keys (stats (fst (mdel (repeat key n) c)))
     = Stats.keys (stats c) - Z.of_nat n
  /\ snd (hasKey key (fst (mdel (repeat key n) c))) = Normal true.
Proof.
  intros Hkey Habs.
  assert (Hget : forall c0, data c0 = data c ->
                   data_get (data c0) key = Inherited).
  { intros c0 ->. unfold data_get. rewrite Habs, Hkey. reflexivity. }
  split; [rewrite hasKey_eq, (Hget c eq_refl); reflexivity|].
  assert (Hloop : forall (s : Z) (c0 : RotatingCache.t),
            data c0 = data c ->
            snd (reduce (fun s k => n <- del k ;; ret (s + n))
                   (repeat key n) s c0) = Normal (s + Z.of_nat n)
            /\ data (fst (reduce (fun s k => n <- del k ;; ret (s + n))
                            (repeat key n) s c0)) = data c
            /\ Stats.keys
                 (stats (fst (reduce (fun s k => n <- del k ;; ret (s + n))
                                (repeat key n) s c0)))
               = Stats.keys (stats c0) - Z.of_nat n).
  { induction n as [|n IH]; intros s c0 Hc0.
    - simpl. rewrite Z.add_0_r, Z.sub_0_r. auto.
    - cbn [repeat reduce].
      assert (Hstep : (m <- del key ;; ret (s + m)) c0
                      = (deleted key c0, Normal (s + 1))).
      { unfold bind, ret. rewrite del_eq, (Hget c0 Hc0). reflexivity. }
      rewrite (bind_normal _ _ _ _ _ Hstep).
      assert (Hd : data (deleted key c0) = data c).
      { simpl. rewrite Hc0. apply delete_absent, Habs. }
      destruct (IH (s + 1) (deleted key c0) Hd) as (Hr & Hdata & Hk).
      rewrite Nat2Z.inj_succ.
      split; [rewrite Hr; f_equal; lia|]. split; [exact Hdata|].
      rewrite Hk. simpl. lia. }
  unfold mdel. destruct (Hloop 0 c eq_refl) as (Hr & Hd & Hk).
  split; [exact Hr|]. split; [exact Hd|]. split; [exact Hk|].
  rewrite hasKey_eq. cbn [snd]. rewrite (Hget _ Hd). reflexivity.
Qed.

Lemma inherited_name_is_never_gone_witness :
  snd (mdel ["valueOf"; "valueOf"; "valueOf"] fresh) = Normal 3
  /\ Stats.keys (stats (fst (mdel ["valueOf"; "valueOf"; "valueOf"] fresh)))
     = -3.
Proof.
  destruct (inherited_name_is_never_gone "valueOf" 3 fresh eq_refl eq_refl)
    as (_ & Hr & _ & Hk & _).
  split; [exact Hr | exact Hk].
Defined.

(** ** The rotation policies on a store of two *)

Lemma oldest_selects_greatest_added_witness :
  rotate (a_then_b "oldest") = (a_then_b "oldest", Normal (Some "b"))
  /\ exists e, In ("b", e) (data (a_then_b "oldest"))
       /\ forall k' e', In (k', e') (data (a_then_b "oldest")) ->
            Entry.added e' <= Entry.added e.
Proof.
  split; [reflexivity|].
  exact (oldest_selects_greatest_added (a_then_b "oldest")
           (a_then_b "oldest") "b" eq_refl eq_refl).
Defined.

Lemma inactive_selects_greatest_lastAccess_witness :
  rotate (a_then_b "inactive") = (a_then_b "inactive", Normal (Some "a"))
  /\ exists e, In ("a", e) (data (a_then_b "inactive"))
       /\ forall k' e', In (k', e') (data (a_then_b "inactive")) ->
            Entry.lastAccess e' <= Entry.lastAccess e.
Proof.
  split; [reflexivity|].
  exact (inactive_selects_greatest_lastAccess (a_then_b "inactive")
           (a_then_b "inactive") "a" eq_refl eq_refl).
Defined.

Lemma expiry_selects_least_ttl_witness :
  rotate (a_then_b "expiry") = (a_then_b "expiry", Normal (Some "b"))
  /\ exists e, In ("b", e) (data (a_then_b "expiry"))
       /\ forall k' e', In (k', e') (data (a_then_b "expiry")) ->
            _getTTLDate (options (a_then_b "expiry")) e
            <= _getTTLDate (options (a_then_b "expiry")) e'.
Proof.
  split; [reflexivity|].
  apply (expiry_selects_least_ttl (a_then_b "expiry") (a_then_b "expiry") "b");
    [reflexivity | | reflexivity].
  intros k' e' [[= <- <-] | [[= <- <-] | []]]; discriminate.
Defined.

(** ** The estimator *)

Lemma _getValueSize_nonneg (o : Options.t) (value : val) :
  0 <= Options.arrayValueSize o ->
  0 <= Options.promiseValueSize o ->
  0 <= Options.objectValueSize o ->
  0 <= _getValueSize o value.
Proof.
  intros Ha Hp Ho. destruct value; simpl; try lia;
    apply Z.mul_nonneg_nonneg; lia.
Qed.

(** X23: with weights [arrayValueSize], [promiseValueSize] and
    [objectValueSize] that are not negative, [stats.valueSize] is a number
    and is not negative after every sequence of calls on keys that
    [Object.prototype] does not have. *)
Theorem valueSize_is_never_negative (clock : nat -> Z) (o : Options.t)
  (c : RotatingCache.t) (calls : list call) :
  constructor o = Normal c ->
  0 <= Options.arrayValueSize o ->
  0 <= Options.promiseValueSize o ->
  0 <= Options.objectValueSize o ->
  Forall ordinary calls ->
  exists n,
    Stats.valueSize (stats (fold_left (invoke clock) calls c)) = Number.Int n
    /\ 0 <= n.
Proof.
  intros Hc Ha Hp Hobj Hord.
  destruct (sequence_kept o clock calls Hord c (constructor_kept o c Hc))
    as (Ho & (_ & _ & _ & Hv) & Hest & _).
  exists (estimates o (data (fold_left (invoke clock) calls c))).
  split; [rewrite Hv, (estimated_sizes _ Hest), Ho; reflexivity|].
  generalize (data (fold_left (invoke clock) calls c)) as d.
  induction d as [|[k e] d IH]; simpl; [lia|].
  pose proof (_getValueSize_nonneg o (Entry.value e) Ha Hp Hobj). lia.
Qed.

Lemma valueSize_is_never_negative_witness :
  exists n,
    Stats.valueSize
      (stats (fold_left (invoke ticking) some_calls (two_keys "inactive")))
    = Number.Int n
    /\ 0 <= n.
Proof.
  apply (valueSize_is_never_negative ticking (options (two_keys "inactive")));
    [reflexivity | simpl; lia | simpl; lia | simpl; lia |].
  exact some_calls_ordinary.
Defined.

(** ** flushStats *)



(** ** A capacity of nothing *)


